(** * coremltools: the torch op registry and the MIL no-op elimination pass

  A shallow embedding of
  - [coremltools/converters/mil/frontend/torch/torch_op_registry.py]
  - [coremltools/converters/mil/mil/passes/noop_elimination.py]
  and the properties of them that the specification states. *)

From Stdlib Require Import ZArith Lia List String Ascii Bool Sorting.Sorted.
From stdpp Require Import base option list strings gmap.

Local Open Scope string_scope.

(** ** Python [str] built-ins used by the sources *)

Module PyStr.

(** [s.startswith(p)] *)
Definition startswith (s p : string) : bool := String.prefix p s.

(** [s.endswith(suf)]: some tail of [s] is [suf]. *)
Fixpoint endswith (s suf : string) : bool :=
  if String.eqb s suf then true
  else match s with
       | EmptyString => false
       | String _ s' => endswith s' suf
       end.

(** A slice bound of [s[a:b]]: [None] is an omitted bound, a negative
    bound counts from the end, and bounds are clamped to [0 .. len]. *)
Definition bound (len : nat) (default : nat) (i : option Z) : nat :=
  match i with
  | None => default
  | Some z =>
      if (z <? 0)%Z then Z.to_nat (Z.max 0 (Z.of_nat len + z))
      else Nat.min (Z.to_nat z) len
  end.

(** [s[start:stop]] *)
Definition slice (s : string) (start stop : option Z) : string :=
  let len := String.length s in
  let a := bound len 0 start in
  let b := bound len len stop in
  String.substring a (b - a) s.

(** ['_' in s] *)
Fixpoint has_underscore (s : string) : bool :=
  match s with
  | EmptyString => false
  | String c s' => Ascii.eqb c "_"%char || has_underscore s'
  end.

(** [s.lower()] on a string of ASCII characters.  [str.lower] itself
    follows the Unicode case mapping: the functions that call it take it
    as the parameter [lower], and this one only serves to run them on
    ASCII names. *)
Definition lower_char (c : ascii) : ascii :=
  let n := nat_of_ascii c in
  if (65 <=? n)%nat && (n <=? 90)%nat then ascii_of_nat (n + 32) else c.

Fixpoint lower_ascii (s : string) : string :=
  match s with
  | EmptyString => EmptyString
  | String c s' => String (lower_char c) (lower_ascii s')
  end.

End PyStr.

(** ** [torch_op_registry.py] *)

Module TorchOpRegistry.
Import PyStr.

(** A Python callable: its [__name__] and a tag standing for its identity. *)
Record Callable := { __name__ : string; code : nat }.

#[global] Instance Callable_eq_dec : EqDecision Callable.
Proof. solve_decision. Defined.

(** The exceptions the module raises.  [Exception] and [ValueError] carry
    the name that the source interpolates in the message. *)
Inductive exn :=
| Exception (name : string)
| ValueError (name : string)
| AssertionError.

Record TorchOpsRegistry := { name_to_func_mapping : gmap string Callable }.

(** [TorchOpsRegistry.__init__] *)
Definition __init__ : TorchOpsRegistry := {| name_to_func_mapping := ∅ |}.

(** [TorchOpsRegistry.get_func] *)
Definition get_func (self : TorchOpsRegistry) (op_lookup : string) : option Callable :=
  let op_lookup :=
    if startswith op_lookup "__" && endswith op_lookup "__" then
      slice op_lookup (Some 2%Z) (Some (-2)%Z)
    else if endswith op_lookup "_" then
      slice op_lookup None (Some (-1)%Z)
    else op_lookup in
  name_to_func_mapping self !! op_lookup.

(** Methods mutate [self] and may raise: a state and error monad. *)
Definition M (A : Type) : Type := TorchOpsRegistry → (exn + A) * TorchOpsRegistry.

#[global] Instance M_ret : MRet M := λ A a self, (inr a, self).
#[global] Instance M_bind : MBind M := λ A B k m self,
  match m self with
  | (inr a, self') => k a self'
  | (inl e, self') => (inl e, self')
  end.
Definition raise {A} (e : exn) : M A := λ self, (inl e, self).
Definition get_self : M TorchOpsRegistry := λ self, (inr self, self).

(** [for x in l: body(x)] *)
Fixpoint for_in {A} (l : list A) (body : A → M unit) : M unit :=
  match l with
  | [] => mret tt
  | x :: l' => body x ;; for_in l' body
  end.

(** [TorchOpsRegistry.set_func_by_name] *)
Definition set_func_by_name (func : Callable) (name : string) : M unit :=
  λ self, (inr tt, {| name_to_func_mapping := <[name := func]> (name_to_func_mapping self) |}).

(** [all_f_names] as built at the start of [register_func]. *)
Definition all_f_names (func : Callable) (torch_alias : option (list string)) : list string :=
  let f_name := __name__ func in
  [f_name] ++ match torch_alias with
              | Some aliases => aliases
              | None => []
              end.

(** The body of the [for name in all_f_names] loop. *)
Definition register_one (func : Callable) (override : bool) (name : string) : M unit :=
  if endswith name "_" then raise (Exception name)
  else
    self ← get_self;
    if negb override && bool_decide (is_Some (name_to_func_mapping self !! name))
    then raise (ValueError name)
    else set_func_by_name func name.

(** [TorchOpsRegistry.register_func] *)
Definition register_func (func : Callable) (torch_alias : option (list string))
    (override : bool) : M unit :=
  for_in (all_f_names func torch_alias) (register_one func override).

(** [TorchOpsRegistry.is_inplace_op] *)
Definition is_inplace_op (op_lookup : string) : bool :=
  negb (startswith op_lookup "__" && endswith op_lookup "__") && endswith op_lookup "_".

(** [TorchOpsRegistry.__contains__]; the [_deprecated] decorator only
    emits a warning before calling the method. *)
Definition __contains__ (self : TorchOpsRegistry) (key : string) : bool :=
  bool_decide (is_Some (name_to_func_mapping self !! key)).

(** [TorchOpsRegistry.__setitem__] *)
Definition __setitem__ (key : string) (value : Callable) : M unit :=
  λ self, (inr tt, {| name_to_func_mapping := <[key := value]> (name_to_func_mapping self) |}).

(** A [torch.fx.Node]: its [op] kind and its [target], a string or an
    object with a [__name__]. *)
Record Node := { op : string; target : string + Callable }.

(** [is_torch_fx_node_supported], reading the global registry passed as
    [registry]; the logger call has no effect on the result.  [lower] is
    the method [str.lower] of the Python runtime. *)
Definition is_torch_fx_node_supported (lower : string → string)
    (registry : TorchOpsRegistry) (torch_fx_node : Node) : exn + bool :=
  if negb (String.eqb (op torch_fx_node) "call_function") then inr false
  else
    let torch_fx_node_target := target torch_fx_node in
    let torch_fx_node_target_name :=
      match torch_fx_node_target with
      | inl s => lower s
      | inr f => lower (__name__ f)
      end in
    if endswith torch_fx_node_target_name "_" then inl AssertionError
    else
      let _ATEN_NODE_PREFIX := "aten." in
      let torch_fx_node_target_name :=
        if startswith torch_fx_node_target_name _ATEN_NODE_PREFIX then
          slice torch_fx_node_target_name
            (Some (Z.of_nat (String.length _ATEN_NODE_PREFIX))) None
        else torch_fx_node_target_name in
      inr (__contains__ registry torch_fx_node_target_name).

End TorchOpRegistry.

(** ** [noop_elimination.py] *)

Module NoopElimination.

(** *** The graph model the pass consumes *)

(** Modelled from the spec: the symbolic type of a value, a shape and an
    element kind; a dimension is a number or a symbol.  The MIL type
    classes are not among the sources. *)
Inductive dim :=
| dim_int (n : Z)
| dim_sym (s : string).

Record SymType := { dtype : string; shape : list dim }.

(** A compile-time constant: a NumPy scalar or a (flattened) array.
    Numbers are only ever compared with the constants 0 and 1 and, for a
    permutation, with one another. *)
Inductive Value :=
| Scalar (z : Z)
| Array (l : list Z).

(** Modelled from the spec: an IR value has a symbolic type and an
    optional compile-time constant; [var_name] stands for the identity
    of the Python object. *)
Record Var := { var_name : string; sym_type : SymType; val : option Value }.

#[global] Instance dim_eq_dec : EqDecision dim.
Proof. solve_decision. Defined.
#[global] Instance SymType_eq_dec : EqDecision SymType.
Proof. solve_decision. Defined.
#[global] Instance Value_eq_dec : EqDecision Value.
Proof. solve_decision. Defined.
#[global] Instance Var_eq_dec : EqDecision Var.
Proof. solve_decision. Defined.

(** Modelled from the spec: an operation has a type tag, named input
    values, a sequence of output values and nested blocks; a block is a
    sequence of operations and a list of declared outputs.  [name] is
    the operation's name, unique in a MIL program; it stands for the
    identity of the Python object, which in-place updates of the inputs
    and nested blocks do not change. *)
Inductive Operation :=
| mkOperation (name : string) (op_type : string) (inputs : list (string * Var))
    (outputs : list Var) (blocks : list Block)
with Block :=
| mkBlock (operations : list Operation) (outputs : list Var).

Definition name (op : Operation) : string :=
  match op with mkOperation n _ _ _ _ => n end.
Definition op_type (op : Operation) : string :=
  match op with mkOperation _ t _ _ _ => t end.
Definition inputs (op : Operation) : list (string * Var) :=
  match op with mkOperation _ _ i _ _ => i end.
Definition outputs (op : Operation) : list Var :=
  match op with mkOperation _ _ _ o _ => o end.
Definition blocks (op : Operation) : list Block :=
  match op with mkOperation _ _ _ _ b => b end.
Definition operations (block : Block) : list Operation :=
  match block with mkBlock ops _ => ops end.
Definition block_outputs (block : Block) : list Var :=
  match block with mkBlock _ outs => outs end.

(** In-place updates of an operation's nested blocks and of a block's
    operation list. *)
Definition set_blocks (op : Operation) (bs : list Block) : Operation :=
  mkOperation (name op) (op_type op) (inputs op) (outputs op) bs.
Definition set_operations (block : Block) (ops : list Operation) : Block :=
  mkBlock ops (block_outputs block).

(** Modelled from the spec: a program is a mapping from function name to
    its top-level block; [prog.functions] is kept in insertion order. *)
Definition Program := list (string * Block).

(** *** Outcomes *)

Inductive exn :=
| AttributeError (attr : string)
| IndexError
| TypeError
| ValueError
| KeyError (key : string).

(** A call returns, raises, or (for the loops, which are run on fuel) is
    cut short. *)
Inductive outcome (A : Type) :=
| Return (a : A)
| Raise (e : exn)
| OutOfFuel.
Arguments Return {A} a.
Arguments Raise {A} e.
Arguments OutOfFuel {A}.

#[global] Instance outcome_ret : MRet outcome := λ A a, Return a.
#[global] Instance outcome_bind : MBind outcome := λ A B k m,
  match m with
  | Return a => k a
  | Raise e => Raise e
  | OutOfFuel => OutOfFuel
  end.

(** [op.<attr>]: the input bound to [attr]. *)
Fixpoint lookup_input (attr : string) (ins : list (string * Var)) : option Var :=
  match ins with
  | [] => None
  | (k, v) :: ins' => if decide (k = attr) then Some v else lookup_input attr ins'
  end.

Definition getattr (op : Operation) (attr : string) : outcome Var :=
  match lookup_input attr (inputs op) with
  | Some v => Return v
  | None => Raise (AttributeError attr)
  end.

(** [op.outputs[0]] *)
Definition outputs_0 (op : Operation) : outcome Var :=
  match outputs op with
  | v :: _ => Return v
  | [] => Raise IndexError
  end.

(** Modelled from the spec: [var.op], the defining operation of a value,
    its unique producer, or none.  Within [block] it is the operation
    that lists the value among its outputs; a value produced outside the
    block (a graph input, or a value of an enclosing scope) has no
    producer in the block. *)
Definition var_op (block : Block) (v : Var) : option Operation :=
  List.find (λ o, bool_decide (v ∈ outputs o)) (operations block).

(** The position of an operation in a block, by identity. *)
Fixpoint index_of (n : string) (ops : list Operation) : option nat :=
  match ops with
  | [] => None
  | o :: ops' => if decide (name o = n) then Some 0 else S <$> index_of n ops'
  end.

Definition find_op_id_in_block (block : Block) (op : Operation) : option nat :=
  index_of (name op) (operations block).

(** Replacing the uses of [old_var] by [new_var] in an operation: in
    its inputs, and throughout its nested blocks, their declared outputs
    included. *)
Definition subst_var (old_var new_var v : Var) : Var :=
  if decide (v = old_var) then new_var else v.

Fixpoint replace_in_op (old_var new_var : Var) (op : Operation) : Operation :=
  match op with
  | mkOperation n t ins outs bs =>
      mkOperation n t
        (map (λ kv, (kv.1, subst_var old_var new_var kv.2)) ins)
        outs
        (map (λ b, match b with
                   | mkBlock ops bouts =>
                       mkBlock (map (replace_in_op old_var new_var) ops)
                               (map (subst_var old_var new_var) bouts)
                   end) bs)
  end.

(** Modelled from the spec: [Block.replace_uses_of_var_after_op], not
    among the sources.  "Given an anchor operation, an old value, and a
    new value, replace every use of old value that occurs at or after the
    anchor in program order with new value; uses strictly before the
    anchor are left untouched."  An anchor that is absent or not in the
    block precedes the whole block.  The block's declared outputs are
    uses at its end. *)
Definition replace_uses_of_var_after_op (block : Block) (anchor_op : option Operation)
    (old_var new_var : Var) : Block :=
  let start :=
    match anchor_op with
    | Some a => default 0 (find_op_id_in_block block a)
    | None => 0
    end in
  mkBlock
    (take start (operations block)
       ++ map (replace_in_op old_var new_var) (drop start (operations block)))
    (map (subst_var old_var new_var) (block_outputs block)).

(** [list.remove]: drop the first operation that is [op]. *)
Fixpoint remove_op (n : string) (ops : list Operation) : list Operation :=
  match ops with
  | [] => []
  | o :: ops' => if decide (name o = n) then ops' else o :: remove_op n ops'
  end.

(** Modelled from the spec: [Block.remove_ops], not among the sources:
    "remove a set of operations". *)
Definition remove_ops (block : Block) (ops_to_remove : list Operation) : Block :=
  mkBlock
    (foldl (λ ops op, remove_op (name op) ops) (operations block) ops_to_remove)
    (block_outputs block).

(** *** NumPy on constants *)

(** [np.all(v == x)] *)
Definition np_all_eq (v : Value) (x : Z) : bool :=
  match v with
  | Scalar z => (z =? x)%Z
  | Array l => forallb (λ z, (z =? x)%Z) l
  end.

(** The truth value of [v != x], as [if] takes it: [None != x] is true,
    and an array of more or fewer than one element has no truth value. *)
Definition ne_cond (v : option Value) (x : Z) : outcome bool :=
  match v with
  | None => Return true
  | Some (Scalar z) => Return (negb (z =? x)%Z)
  | Some (Array [z]) => Return (negb (z =? x)%Z)
  | Some (Array _) => Raise ValueError
  end.

(** [np.sort] *)
Fixpoint insert_sorted (z : Z) (l : list Z) : list Z :=
  match l with
  | [] => [z]
  | y :: l' => if (z <=? y)%Z then z :: l else y :: insert_sorted z l'
  end.

Definition np_sort (l : list Z) : list Z := foldr insert_sorted [] l.

(** [(a != b).any()] on arrays of one length *)
Definition np_any_ne (a b : list Z) : bool :=
  existsb (λ ab, negb (ab.1 =? ab.2)%Z) (zip a b).

(** *** The removal strategies *)

Definition _remove_elementwise_binary (op : Operation) (block : Block)
    (x y : option Z) : outcome (bool * Block) :=
  (* We remove the ops that has op.x == x or op.y == y *)
  let try_y : outcome (option Var) :=
    match y with
    | Some y =>
        op_y ← getattr op "y";
        match val op_y with
        | Some v =>
            if np_all_eq v y then input_var ← getattr op "x"; mret (Some input_var)
            else mret None
        | None => mret None
        end
    | None => mret None
    end in
  selected ←
    match x with
    | Some x =>
        op_x ← getattr op "x";
        match val op_x with
        | Some v =>
            if np_all_eq v x then input_var ← getattr op "y"; mret (Some input_var)
            else try_y
        | None => try_y
        end
    | None => try_y
    end;
  match selected with
  | None => mret (false, block)
  | Some input_var =>
      let input_op := var_op block input_var in
      let input_shape := sym_type input_var in
      out0 ← outputs_0 op;
      let output_shape := sym_type out0 in
      (* We might be using elementwise as broadcasting *)
      if bool_decide (input_shape ≠ output_shape) then mret (false, block)
      else
        out0 ← outputs_0 op;
        let block := replace_uses_of_var_after_op block input_op out0 input_var in
        let block := remove_ops block [op] in
        mret (true, block)
  end.

Definition remove_elementwise (op : Operation) (block : Block) : outcome (bool * Block) :=
  if bool_decide (op_type op ∈ ["add"]) then
    _remove_elementwise_binary op block (Some 0%Z) (Some 0%Z)
  else if bool_decide (op_type op ∈ ["mul"]) then
    _remove_elementwise_binary op block (Some 1%Z) (Some 1%Z)
  else if bool_decide (op_type op ∈ ["floor_div"; "pow"; "real_div"]) then
    _remove_elementwise_binary op block None (Some 1%Z)
  else if bool_decide (op_type op ∈ ["sub"]) then
    _remove_elementwise_binary op block None (Some 0%Z)
  else mret (false, block).

Definition remove_same_shape (op : Operation) (block : Block) : outcome (bool * Block) :=
  op_x ← getattr op "x";
  let input_shape := sym_type op_x in
  out0 ← outputs_0 op;
  let output_shape := sym_type out0 in
  if bool_decide (input_shape ≠ output_shape) then mret (false, block)
  else
    input_var ← getattr op "x";
    let input_op := var_op block input_var in
    out0 ← outputs_0 op;
    let block := replace_uses_of_var_after_op block input_op out0 input_var in
    (* Remove all the ops at once *)
    let block := remove_ops block [op] in
    mret (true, block).

Definition remove_linear (op : Operation) (block : Block) : outcome (bool * Block) :=
  alpha ← getattr op "alpha";
  alpha_ne ← ne_cond (val alpha) 1;
  if (alpha_ne : bool) then mret (false, block)
  else
    beta ← getattr op "beta";
    beta_ne ← ne_cond (val beta) 0;
    if (beta_ne : bool) then mret (false, block)
    else
      input_var ← getattr op "x";
      let input_op := var_op block input_var in
      out0 ← outputs_0 op;
      let block := replace_uses_of_var_after_op block input_op out0 input_var in
      (* Remove all the ops at once *)
      let block := remove_ops block [op] in
      mret (true, block).

Definition remove_transpose (op : Operation) (block : Block) : outcome (bool * Block) :=
  op_perm ← getattr op "perm";
  match val op_perm with
  | Some (Array perm_val) =>
      let perm :=
        map (λ p, if (0 <=? p)%Z then p else (p + Z.of_nat (length perm_val))%Z) perm_val in
      let sorted_perm := np_sort perm in
      if np_any_ne perm sorted_perm then mret (false, block)
      else
        input_var ← getattr op "x";
        let input_op := var_op block input_var in
        out0 ← outputs_0 op;
        let block := replace_uses_of_var_after_op block input_op out0 input_var in
        (* Remove all the ops at once *)
        let block := remove_ops block [op] in
        mret (true, block)
  | _ => Raise TypeError
  end.

Definition removal_fn : Type := Operation → Block → outcome (bool * Block).

Definition _SUPPORTED_OPS : list string :=
  [ "add"; "mul"; "floor_div"; "pow"; "real_div"; "sub"; "reshape"; "split";
    "slice_by_index"; "slice_by_size"; "pad"; "tile"; "transpose";
    "upsample_nearest_neighbor"; "upsample_bilinear"; "resize_bilinear";
    "crop"; "linear_activation" ].

Definition op_to_removal_fn : list (string * removal_fn) :=
  [ ("add", remove_elementwise);
    ("mul", remove_elementwise);
    ("floor_div", remove_elementwise);
    ("pow", remove_elementwise);
    ("real_div", remove_elementwise);
    ("sub", remove_elementwise);
    ("reshape", remove_same_shape);
    ("split", remove_same_shape);
    ("slice_by_index", remove_same_shape);
    ("slice_by_size", remove_same_shape);
    ("pad", remove_same_shape);
    ("tile", remove_same_shape);
    ("transpose", remove_transpose);
    ("upsample_nearest_neighbor", remove_same_shape);
    ("upsample_bilinear", remove_same_shape);
    ("resize_bilinear", remove_same_shape);
    ("crop", remove_same_shape);
    ("linear_activation", remove_linear) ].

(** [d[key]] on the dispatch table *)
Fixpoint dict_get (key : string) (d : list (string * removal_fn)) : option removal_fn :=
  match d with
  | [] => None
  | (k, f) :: d' => if decide (k = key) then Some f else dict_get key d'
  end.

(** [_match_pattern(op)], with [op.enclosing_block] passed as [block]. *)
Definition _match_pattern (op : Operation) (block : Block) : outcome (option removal_fn) :=
  (* abort if op output is a block output *)
  out0 ← outputs_0 op;
  if bool_decide (out0 ∈ block_outputs block) then mret None
  else if bool_decide (op_type op ∈ _SUPPORTED_OPS) then
    if bool_decide (length (outputs op) ≠ 1) then mret None
    else match dict_get (op_type op) op_to_removal_fn with
         | Some f => mret (Some f)
         | None => Raise (KeyError (op_type op))
         end
  else mret None.

(** *** The pass *)

(** [self.ops_to_skip], a set of operations, kept by name. *)
Record noop_elimination := { ops_to_skip : list string }.

(** [noop_elimination.__init__] *)
Definition __init__ : noop_elimination := {| ops_to_skip := [] |}.

(** [noop_elimination.set_ops_to_skip] *)
Definition set_ops_to_skip (self : noop_elimination) (prog : Program) : noop_elimination :=
  self.

(** [block_changed = True; while block_changed: block_changed = step(b)],
    with the blocks the steps mutate threaded through. *)
Fixpoint while_block_changed (step : Block → outcome (bool * Block)) (fuel : nat)
    (b : Block) : outcome Block :=
  match fuel with
  | O => OutOfFuel
  | S fuel' =>
      '(block_changed, b) ← step b;
      if (block_changed : bool) then while_block_changed step fuel' b else mret b
  end.

(** [for b in op.blocks: ...] *)
Fixpoint for_blocks (body : Block → outcome Block) (bs : list Block) : outcome (list Block) :=
  match bs with
  | [] => mret []
  | b :: bs' => b' ← body b; bs'' ← for_blocks body bs'; mret (b' :: bs'')
  end.

(** The body of [_noop_elimination_block]: the loop over the snapshot
    [list(block.operations)].  [i] is the position in the live block of
    the head of the snapshot; [converge] is the loop run on each nested
    block. *)
Fixpoint scan_operations (self : noop_elimination) (converge : Block → outcome Block)
    (snapshot : list Operation) (i : nat) (block : Block) : outcome (bool * Block) :=
  match snapshot with
  | [] => mret (false, block)
  | op :: rest =>
      bs ← for_blocks converge (blocks op);
      let op := set_blocks op bs in
      let block := set_operations block (<[i := op]> (operations block)) in
      if bool_decide (0 < length (blocks op)) then
        scan_operations self converge rest (S i) block
      else
        remove_fn ← _match_pattern op block;
        match remove_fn with
        | Some remove_fn =>
            if bool_decide (name op ∉ ops_to_skip self) then
              '(status, block) ← remove_fn op block;
              (* has to break as the downstream iterator is affected. *)
              if (status : bool) then mret (status, block)
              else scan_operations self converge rest (S i) block
            else scan_operations self converge rest (S i) block
        | None => scan_operations self converge rest (S i) block
        end
  end.

(** [noop_elimination._noop_elimination_block] *)
Fixpoint _noop_elimination_block (self : noop_elimination) (fuel : nat)
    (block : Block) : outcome (bool * Block) :=
  match fuel with
  | O => OutOfFuel
  | S fuel' =>
      scan_operations self
        (while_block_changed (_noop_elimination_block self fuel') fuel')
        (operations block) 0 block
  end.

(** [for f in prog.functions.values(): ...] *)
Fixpoint for_functions (body : Block → outcome Block) (prog : Program) : outcome Program :=
  match prog with
  | [] => mret []
  | (fname, f) :: prog' =>
      f' ← body f; prog'' ← for_functions body prog'; mret ((fname, f') :: prog'')
  end.

(** [noop_elimination.apply] *)
Definition apply (self : noop_elimination) (fuel : nat) (prog : Program) : outcome Program :=
  let self := set_ops_to_skip self prog in
  for_functions (while_block_changed (_noop_elimination_block self fuel) fuel) prog.

End NoopElimination.

(** ** Predicates and examples used to state the properties of the registry *)

Module TorchOpRegistrySpec.
Import PyStr TorchOpRegistry.

(** A dunder-wrapped name, as [get_func] tests it. *)
Definition dunder (s : string) : Prop :=
  startswith s "__" = true ∧ endswith s "__" = true.

(** The registry after binding [names] to [func], in order. *)
Definition bind_all (func : Callable) (names : list string)
    (self : TorchOpsRegistry) : TorchOpsRegistry :=
  {| name_to_func_mapping :=
       foldl (λ m n, <[n := func]> m) (name_to_func_mapping self) names |}.

(** The lower-cased name [is_torch_fx_node_supported] computes from a node. *)
Definition target_name (lower : string → string) (torch_fx_node : Node) : string :=
  match target torch_fx_node with
  | inl s => lower s
  | inr f => lower (__name__ f)
  end.

(** The name after the [aten.] prefix, if any, is dropped. *)
Definition strip_aten (name : string) : string :=
  if startswith name "aten." then slice name (Some 5%Z) None else name.

(** *** Example registries *)

Definition add_handler : Callable := {| __name__ := "add"; code := 1 |}.
Definition add_handler' : Callable := {| __name__ := "add"; code := 2 |}.
Definition and_handler : Callable := {| __name__ := "__and__"; code := 3 |}.

(** The registry after [register_func(add_handler)] on a fresh one. *)
Definition registry_add : TorchOpsRegistry :=
  (register_func add_handler None false __init__).2.

Definition add_node : Node := {| op := "call_function"; target := inl "aten.Add" |}.
Definition add__node : Node := {| op := "call_function"; target := inl "add_" |}.

End TorchOpRegistrySpec.

(** ** Measures and predicates used to state the properties of the pass *)

Module NoopEliminationSpec.
Import NoopElimination.

(** The number of operations and blocks below an operation / a block. *)
Fixpoint op_size (op : Operation) : nat :=
  match op with
  | mkOperation _ _ _ _ bs =>
      S (list_sum (map (λ b, match b with
                            | mkBlock ops _ => S (list_sum (map op_size ops))
                            end) bs))
  end.

Definition block_size (block : Block) : nat :=
  S (list_sum (map op_size (operations block))).

Definition program_size (prog : Program) : nat :=
  list_sum (map (λ f, block_size f.2) prog).

(** What a successful strategy leaves: the uses of [out0] from the
    producer of [input_var] on go to [input_var], and [op] is removed. *)
Definition rewire (op : Operation) (block : Block) (input_var out0 : Var) : Block :=
  remove_ops
    (replace_uses_of_var_after_op block (var_op block input_var) out0 input_var)
    [op].

(** [v] is an input of [op]. *)
Definition uses (v : Var) (op : Operation) : Prop := v ∈ map snd (inputs op).


(** The identity element of an elementwise binary operator, and whether
    it is looked for on the left operand too. *)
Definition identity_element (t : string) : Z :=
  if bool_decide (t ∈ ["add"; "sub"]) then 0%Z else 1%Z.

Definition left_allowed (t : string) : bool := bool_decide (t ∈ ["add"; "mul"]).

Definition elementwise_ops : list string :=
  ["add"; "mul"; "sub"; "real_div"; "floor_div"; "pow"].

(** [v] is a compile-time constant equal to [e]. *)
Definition is_constant (v : Var) (e : Z) : bool :=
  match val v with
  | Some a => np_all_eq a e
  | None => false
  end.


(** The operand the code lets survive: the left operand is tested first. *)
Definition surviving_operand (t : string) (x y : Var) : option Var :=
  if left_allowed t && is_constant x (identity_element t) then Some y
  else if is_constant y (identity_element t) then Some x
  else None.



(** [op'] is [op] up to in-place updates of its inputs and nested blocks. *)
Definition same_interface (op op' : Operation) : Prop :=
  name op' = name op ∧ op_type op' = op_type op ∧ outputs op' = outputs op.


(** [replace_in_op] on a nested block. *)
Definition replace_in_block (old_var new_var : Var) (b : Block) : Block :=
  mkBlock (map (replace_in_op old_var new_var) (operations b))
          (map (subst_var old_var new_var) (block_outputs b)).

(** The values produced by an operation: its outputs and the values
    produced in its nested blocks. *)
Fixpoint produced (op : Operation) : list Var :=
  match op with
  | mkOperation _ _ _ outs bs =>
      outs ++ concat (map (λ b, match b with
                                | mkBlock ops _ => concat (map produced ops)
                                end) bs)
  end.

Definition produced_in (block : Block) : list Var :=
  concat (map produced (operations block)).







(** The shape every removal strategy has: for a given operation it
    raises, or declines and leaves the block as it is, or rewires the
    block around some input of the operation, whatever the block. *)
Definition uniform (f : removal_fn) : Prop :=
  ∀ op,
    (∃ e, ∀ b, f op b = Raise e) ∨
    (∀ b, f op b = Return (false, b)) ∨
    (∃ input_var out0,
       outputs_0 op = Return out0 ∧
       ∀ b, f op b = Return (true, rewire op b input_var out0)).

(** What the loop body does at an operation once the loops on its
    nested blocks have returned: go on to the next operation, raise, or
    rewire the block and stop the scan. *)
Inductive step_kind :=
| K_continue
| K_raise (e : exn)
| K_rewire (input_var out0 : Var).

(** A step of a block loop that returned or raised, and did not grow
    the block; a step that reports a change shrank it. *)
Definition shrinks (b : Block) (r : outcome (bool * Block)) : Prop :=
  match r with
  | Return (changed, b') =>
      (block_size b' ≤ block_size b)%nat ∧
      (changed = true → (block_size b' < block_size b)%nat)
  | Raise _ => True
  | OutOfFuel => False
  end.

(** A block loop that returned or raised, and did not grow the block. *)
Definition converges (b : Block) (r : outcome Block) : Prop :=
  match r with
  | Return b' => (block_size b' ≤ block_size b)%nat
  | Raise _ => True
  | OutOfFuel => False
  end.

(** A constant with a truth value under [!=]: a scalar or a one-element
    array. *)
Definition scalar_constant (v : Var) : Prop :=
  ∃ z, val v = Some (Scalar z) ∨ val v = Some (Array [z]).

(** An operation as the MIL operator definitions make it: it has an
    output; and if its type is one the pass handles, it has the inputs the
    strategy for the type reads ([x]; [y] for the elementwise binary
    operators; a constant array [perm] for transpose; scalar constants
    [alpha] and [beta] for linear_activation) and, not being a constant
    itself, outputs without a compile-time value. *)
Definition well_formed_op (op : Operation) : Prop :=
  outputs op ≠ [] ∧
  (op_type op ∈ _SUPPORTED_OPS →
     Forall (λ v, val v = None) (outputs op) ∧
     (∃ x, getattr op "x" = Return x) ∧
     (op_type op ∈ elementwise_ops → ∃ y, getattr op "y" = Return y) ∧
     (op_type op = "transpose" →
        ∃ p l, getattr op "perm" = Return p ∧ val p = Some (Array l)) ∧
     (op_type op = "linear_activation" →
        ∃ a b, getattr op "alpha" = Return a ∧ getattr op "beta" = Return b ∧
               scalar_constant a ∧ scalar_constant b)).

Inductive well_formed_operation : Operation → Prop :=
| well_formed_operation_intro op :
    well_formed_op op → Forall well_formed_block (blocks op) →
    well_formed_operation op
with well_formed_block : Block → Prop :=
| well_formed_block_intro block :
    Forall well_formed_operation (operations block) →
    well_formed_block block.

Definition well_formed_program (prog : Program) : Prop :=
  Forall (λ f, well_formed_block f.2) prog.

(** The loop body raises at an operation: the matcher does, or the
    strategy it hands out does. *)
Definition raises_at (outs : list Var) (op : Operation) (e : exn) : Prop :=
  _match_pattern op (mkBlock [] outs) = Raise e ∨
  ∃ f, _match_pattern op (mkBlock [] outs) = Return (Some f) ∧
       ∀ b, f op b = Raise e.

(** An outcome that is not an exception and leaves a well-formed block. *)
Definition safe_step (r : outcome (bool * Block)) : Prop :=
  match r with
  | Return (_, b') => well_formed_block b'
  | Raise _ => False
  | OutOfFuel => True
  end.

Definition safe_loop (r : outcome Block) : Prop :=
  match r with
  | Return b' => well_formed_block b'
  | Raise _ => False
  | OutOfFuel => True
  end.

(** [r2] is the outcome of a run given more fuel than the run with
    outcome [r1]: unless the latter was cut short, they agree. *)
Definition refines {A} (r1 r2 : outcome A) : Prop := r1 ≠ OutOfFuel → r2 = r1.

(** Where [replace_uses_of_var_after_op] starts when the anchor is the
    producer of [input_var]. *)
Definition anchor_index (block : Block) (input_var : Var) : nat :=
  match var_op block input_var with
  | Some a => default 0 (find_op_id_in_block block a)
  | None => 0
  end.

(** What a strategy that removes [op] from [block] in favour of
    [input_var] leaves in [block']: [op] is gone and every other
    operation is still there; from the producer of [input_var] on, the
    inputs that were [out0] are [input_var], and nothing there uses
    [out0] any more; the declared outputs are redirected likewise. *)
Definition removed_and_redirected (op : Operation) (block : Block)
    (input_var out0 : Var) (block' : Block) : Prop :=
  (length (operations block') + 1 = length (operations block))%nat ∧
  (∀ o, o ∈ operations block' → name o ≠ name op) ∧
  (∀ o, o ∈ operations block → name o ≠ name op →
     ∃ o', o' ∈ operations block' ∧ same_interface o o') ∧
  (∀ o attr v,
     o ∈ drop (anchor_index block input_var) (operations block) →
     name o ≠ name op → getattr o attr = Return v →
     ∃ o', o' ∈ operations block' ∧ name o' = name o ∧
           getattr o' attr = Return (subst_var out0 input_var v)) ∧
  (input_var ≠ out0 →
     ∀ o, o ∈ operations block' → uses out0 o →
       o ∈ take (anchor_index block input_var) (operations block)) ∧
  block_outputs block' = map (subst_var out0 input_var) (block_outputs block).

(** *** Example graphs *)

Definition fp32 (sh : list Z) : SymType := {| dtype := "fp32"; shape := map dim_int sh |}.
Definition int32 (sh : list Z) : SymType := {| dtype := "int32"; shape := map dim_int sh |}.

Definition var (n : string) (t : SymType) (v : option Value) : Var :=
  {| var_name := n; sym_type := t; val := v |}.

(** [%1 = relu(%0); %2 = add(%1, 0.0); %3 = mul(%2, 7.0)], output [%3]. *)
Definition v0 : Var := var "%0" (fp32 [4; 4]%Z) None.
Definition v1 : Var := var "%1" (fp32 [4; 4]%Z) None.
Definition v2 : Var := var "%2" (fp32 [4; 4]%Z) None.
Definition v3 : Var := var "%3" (fp32 [4; 4]%Z) None.
Definition c0 : Var := var "zero" (fp32 []) (Some (Scalar 0)).
Definition c7 : Var := var "seven" (fp32 []) (Some (Scalar 7)).

Definition relu_1 : Operation := mkOperation "relu_1" "relu" [("x", v0)] [v1] [].
Definition add_2 : Operation := mkOperation "add_2" "add" [("x", v1); ("y", c0)] [v2] [].
Definition mul_3 : Operation := mkOperation "mul_3" "mul" [("x", v2); ("y", c7)] [v3] [].
Definition mul_3' : Operation := mkOperation "mul_3" "mul" [("x", v1); ("y", c7)] [v3] [].

Definition main_block : Block := mkBlock [relu_1; add_2; mul_3] [v3].
Definition main_block' : Block := mkBlock [relu_1; mul_3'] [v3].
Definition main_prog : Program := [("main", main_block)].

(** The same body nested in a control-flow operation. *)
Definition v4 : Var := var "%4" (fp32 [4; 4]%Z) None.
Definition cond_4 : Operation :=
  mkOperation "cond_4" "cond" [("pred", c0)] [v4] [main_block; main_block].
Definition nested_prog : Program := [("main", mkBlock [relu_1; cond_4] [v4])].
Definition cond_4' : Operation :=
  mkOperation "cond_4" "cond" [("pred", c0)] [v4] [main_block'; main_block'].
Definition nested_prog' : Program := [("main", mkBlock [relu_1; cond_4'] [v4])].



(** Transposes. *)
Definition perm (l : list Z) : Var :=
  var "perm" (int32 [Z.of_nat (length l)]) (Some (Array l)).

End NoopEliminationSpec.

(** ** The rest of [torch_op_registry.py] *)

Module TorchOpRegistryExtra.
Import PyStr TorchOpRegistry.

(** The [KeyError] of a [dict] access with a missing key. *)
Inductive lookup_error :=
| KeyError (key : string).

(** [TorchOpsRegistry.__getitem__]; the [_deprecated] decorator only
    emits a warning before calling the method. *)
Definition __getitem__ (self : TorchOpsRegistry) (key : string)
    : lookup_error + Callable :=
  match name_to_func_mapping self !! key with
  | Some f => inr f
  | None => inl (KeyError key)
  end.

(** [TorchOpsRegistry.__delitem__], with the registry it leaves. *)
Definition __delitem__ (key : string) (self : TorchOpsRegistry)
    : (lookup_error + unit) * TorchOpsRegistry :=
  match name_to_func_mapping self !! key with
  | Some _ =>
      (inr tt, {| name_to_func_mapping := delete key (name_to_func_mapping self) |})
  | None => (inl (KeyError key), self)
  end.

(** [func_wrapper], the closure of [register_torch_op]; the state of the
    monad is the global [_TORCH_OPS_REGISTRY]. *)
Definition func_wrapper (torch_alias : option (list string)) (override : bool)
    (func : Callable) : M Callable :=
  register_func func torch_alias override ;; mret func.

(** [register_torch_op]: called without a function it returns the
    decorator, otherwise the decorated function. *)
Definition register_torch_op (_func : option Callable)
    (torch_alias : option (list string)) (override : bool)
    : M (Callable + (Callable → M Callable)) :=
  match _func with
  | None =>
      (* decorator called without argument *)
      mret (inr (func_wrapper torch_alias override))
  | Some _func => func ← func_wrapper torch_alias override _func; mret (inl func)
  end.

End TorchOpRegistryExtra.

(** ** Predicates used to state further properties *)

Module ExtraSpec.
Import PyStr TorchOpRegistry TorchOpRegistrySpec TorchOpRegistryExtra.
Import NoopElimination NoopEliminationSpec.

(** No key of the registry ends in an underscore. *)
Definition no_inplace_keys (self : TorchOpsRegistry) : Prop :=
  ∀ k, is_Some (name_to_func_mapping self !! k) → endswith k "_" = false.

(** The registries that calls of [register_func], returning or raising,
    build from a fresh one. *)
Inductive built : TorchOpsRegistry → Prop :=
| built_init : built TorchOpRegistry.__init__
| built_register self func torch_alias override :
    built self → built (register_func func torch_alias override self).2.

(** A [call_function] node whose target is the string [s]. *)
Definition call_function (s : string) : Node :=
  {| op := "call_function"; target := inl s |}.

(** The types handled by [remove_same_shape]. *)
Definition same_shape_ops : list string :=
  ["reshape"; "split"; "slice_by_index"; "slice_by_size"; "pad"; "tile";
   "upsample_nearest_neighbor"; "upsample_bilinear"; "resize_bilinear"; "crop"].

(** [v] is the compile-time constant [z], as a scalar or as an array
    of one element. *)
Definition constant_is (v : Var) (z : Z) : Prop :=
  val v = Some (Scalar z) ∨ val v = Some (Array [z]).

(** An operation the pass can remove at all: it has no nested block, a
    single output that is not a declared output of the block, a type the
    pass handles, and it is not in the skip set. *)
Definition removable (self : noop_elimination) (outs : list Var)
    (op : Operation) : Prop :=
  blocks op = [] ∧
  (∃ out0, outputs op = [out0] ∧ out0 ∉ outs) ∧
  op_type op ∈ _SUPPORTED_OPS ∧
  name op ∉ ops_to_skip self.

(** [op'] is [op] up to in-place updates: same name, type, outputs and
    number of nested blocks. *)
Definition same_frame (op op' : Operation) : Prop :=
  same_interface op op' ∧ length (blocks op') = length (blocks op).

(** [ops'] is [ops] with some operations satisfying [can_go] removed and
    the others, in their order, updated in place. *)
Inductive remains (can_go : Operation → Prop)
    : list Operation → list Operation → Prop :=
| remains_nil : remains can_go [] []
| remains_keep op op' ops ops' :
    same_frame op op' → remains can_go ops ops' →
    remains can_go (op :: ops) (op' :: ops')
| remains_drop op ops ops' :
    can_go op → remains can_go ops ops' →
    remains can_go (op :: ops) ops'.

(** What a run of the pass on a block leaves: the declared outputs, and
    every operation that is not removable, in order. *)
Definition retained (self : noop_elimination) (b b' : Block) : Prop :=
  block_outputs b' = block_outputs b ∧
  remains (removable self (block_outputs b)) (operations b) (operations b').

(** The pass has nothing left to do at [op]: if the loop body reaches a
    strategy for it, the strategy declines, on every block. *)
Definition declined (self : noop_elimination) (outs : list Var)
    (op : Operation) : Prop :=
  blocks op = [] → name op ∉ ops_to_skip self →
  ∀ f, _match_pattern op (mkBlock [] outs) = Return (Some f) →
    ∀ b, f op b = Return (false, b).

(** A block in which, at every depth, the pass has nothing left to do. *)
Inductive settled_operation (self : noop_elimination)
    : list Var → Operation → Prop :=
| settled_operation_intro outs op :
    declined self outs op → Forall (settled_block self) (blocks op) →
    settled_operation self outs op
with settled_block (self : noop_elimination) : Block → Prop :=
| settled_block_intro block :
    Forall (settled_operation self (block_outputs block)) (operations block) →
    settled_block self block.

(** A block (and everything nested in it) without an operation of a
    type the pass handles; every operation has an output. *)
Inductive unhandled_operation : Operation → Prop :=
| unhandled_operation_intro op :
    outputs op ≠ [] → op_type op ∉ _SUPPORTED_OPS →
    Forall unhandled_block (blocks op) →
    unhandled_operation op
with unhandled_block : Block → Prop :=
| unhandled_block_intro block :
    Forall unhandled_operation (operations block) →
    unhandled_block block.

(** *** Examples *)

Definition sub_handler : Callable := {| __name__ := "sub"; code := 4 |}.

(** [reshape(%1)] to the same type, and a linear activation with
    [alpha = 1], [beta = 0]. *)
Definition reshape_2 : Operation :=
  mkOperation "reshape_2" "reshape" [("x", v1); ("shape", perm [4; 4]%Z)] [v2] [].
Definition reshape_block : Block := mkBlock [relu_1; reshape_2; mul_3] [v3].
Definition c1 : Var := var "one" (fp32 []) (Some (Scalar 1)).
Definition linear_2 : Operation :=
  mkOperation "linear_2" "linear_activation"
    [("x", v1); ("alpha", c1); ("beta", c0)] [v2] [].
Definition linear_block : Block := mkBlock [relu_1; linear_2; mul_3] [v3].

(** The pass with [add_2] in its skip set. *)
Definition skip_add_2 : noop_elimination := {| ops_to_skip := ["add_2"] |}.

(** A program without any operation the pass handles. *)
Definition relu_prog : Program :=
  [("main", mkBlock [relu_1; mkOperation "loop_2" "while_loop" [("x", v1)] [v2]
                               [mkBlock [relu_1] [v1]]] [v2])].

End ExtraSpec.

Module PyStrFacts.
Import PyStr.

Lemma app_nil_s (b : string) : "" ++ b = b.
Proof. reflexivity. Qed.

Lemma app_cons_s c (a b : string) : String c a ++ b = String c (a ++ b).
Proof. reflexivity. Qed.

Ltac app_simpl := rewrite ?app_cons_s, ?app_nil_s in *.

Lemma endswith_unfold s suf :
  endswith s suf =
    if String.eqb s suf then true
    else match s with
         | EmptyString => false
         | String _ s' => endswith s' suf
         end.
Proof. destruct s; reflexivity. Qed.

Lemma endswith_refl s : endswith s s = true.
Proof. rewrite endswith_unfold, String.eqb_refl. reflexivity. Qed.

Lemma endswith_cons c s suf : endswith s suf = true → endswith (String c s) suf = true.
Proof. intros H. rewrite endswith_unfold. destruct (String.eqb _ _); [reflexivity | exact H]. Qed.

Lemma endswith_app p suf : endswith (p ++ suf) suf = true.
Proof.
  induction p as [|c p IH]; app_simpl.
  - apply endswith_refl.
  - apply endswith_cons, IH.
Qed.

Lemma endswith_inv s suf :
  endswith s suf = true → ∃ p, s = p ++ suf.
Proof.
  induction s as [|c s IH]; rewrite endswith_unfold.
  - destruct (String.eqb_spec "" suf) as [<-|_]; [exists ""; reflexivity | discriminate].
  - destruct (String.eqb_spec (String c s) suf) as [->|_].
    + intros _. exists "". reflexivity.
    + intros H. destruct (IH H) as [p ->]. exists (String c p). reflexivity.
Qed.

Lemma endswith_iff s suf : endswith s suf = true ↔ ∃ p, s = p ++ suf.
Proof. split; [apply endswith_inv | intros [p ->]; apply endswith_app]. Qed.

Lemma startswith_iff s p : startswith s p = true ↔ ∃ t, s = p ++ t.
Proof.
  unfold startswith. revert s. induction p as [|c p IH]; intros s.
  - destruct s; simpl; split; eauto.
  - destruct s as [|d s]; simpl.
    + split; [discriminate | intros [t Ht]; discriminate].
    + destruct (ascii_dec c d) as [->|Hne].
      * rewrite IH. split; intros [t Ht]; exists t; app_simpl; [by rewrite Ht | by injection Ht].
      * split; [discriminate | intros [t Ht]; app_simpl; injection Ht; congruence].
Qed.

Lemma app_assoc_s (a b c : string) : (a ++ b) ++ c = a ++ (b ++ c).
Proof. induction a as [|x a IH]; app_simpl; [reflexivity | by rewrite IH]. Qed.

Lemma length_app_s (a b : string) :
  String.length (a ++ b) = String.length a + String.length b.
Proof. induction a as [|x a IH]; app_simpl; simpl; [reflexivity | by rewrite IH]. Qed.

Lemma substring_0_app (a b : string) :
  String.substring 0 (String.length a) (a ++ b) = a.
Proof. induction a as [|x a IH]; app_simpl; simpl; [destruct b; reflexivity | by rewrite IH]. Qed.

(** Two trailing underscores include one. *)
Lemma endswith_2_1 s : endswith s "__" = true → endswith s "_" = true.
Proof.
  rewrite !endswith_iff. intros [p ->]. exists (p ++ "_").
  rewrite app_assoc_s. reflexivity.
Qed.

Lemma has_underscore_app a b :
  has_underscore (a ++ b) = has_underscore a || has_underscore b.
Proof.
  induction a as [|x a IH]; app_simpl; simpl; [reflexivity | rewrite IH; apply orb_assoc].
Qed.

Lemma no_underscore_endswith n : has_underscore n = false → endswith n "_" = false.
Proof.
  intros H. destruct (endswith n "_") eqn:E; [|reflexivity].
  apply endswith_iff in E as [p ->]. rewrite has_underscore_app in H.
  simpl in H. rewrite orb_true_r in H. discriminate.
Qed.

Lemma no_underscore_startswith n : has_underscore n = false → startswith n "__" = false.
Proof.
  intros H. destruct (startswith n "__") eqn:E; [|reflexivity].
  apply startswith_iff in E as [t ->]. app_simpl. simpl in H. discriminate.
Qed.

(** [("__" + n + "__")[2:-2] == n] *)
Lemma slice_dunder n :
  slice ("__" ++ n ++ "__") (Some 2%Z) (Some (-2)%Z) = n.
Proof.
  unfold slice, bound. rewrite !length_app_s. simpl String.length.
  replace (2 <? 0)%Z with false by reflexivity.
  replace (-2 <? 0)%Z with true by reflexivity.
  replace (Nat.min (Z.to_nat 2) (2 + (String.length n + 2))) with 2 by lia.
  replace (Z.to_nat (Z.max 0 (Z.of_nat (2 + (String.length n + 2)) + -2)) - 2)
    with (String.length n) by lia.
  app_simpl. simpl String.substring. apply substring_0_app.
Qed.

(** [(n + "_")[:-1] == n] *)
Lemma slice_inplace n : slice (n ++ "_") None (Some (-1)%Z) = n.
Proof.
  unfold slice, bound. rewrite !length_app_s. simpl String.length.
  replace (-1 <? 0)%Z with true by reflexivity.
  replace (Z.to_nat (Z.max 0 (Z.of_nat (String.length n + 1) + -1)) - 0)
    with (String.length n) by lia.
  apply substring_0_app.
Qed.

Lemma app_inj_tail_s (a b : string) c d :
  a ++ String c "" = b ++ String d "" → a = b ∧ c = d.
Proof.
  revert b. induction a as [|x a IH]; intros [|y b]; app_simpl; intros H.
  - by injection H.
  - injection H as _ H. destruct b; discriminate.
  - injection H as _ H. destruct a; discriminate.
  - injection H as -> H. destruct (IH _ H) as [-> ->]. done.
Qed.

(** A name without a trailing underscore does not become dunder-wrapped
    by appending one underscore. *)
Lemma not_endswith_app_underscore n :
  endswith n "_" = false → endswith (n ++ "_") "__" = false.
Proof.
  intros H. destruct (endswith (n ++ "_") "__") eqn:E; [|reflexivity].
  apply endswith_iff in E as [p Hp].
  change "__" with ("_" ++ "_") in Hp. rewrite <- app_assoc_s in Hp.
  apply app_inj_tail_s in Hp as [-> _].
  rewrite endswith_app in H. discriminate.
Qed.

End PyStrFacts.

Module TorchOpRegistryProofs.
Import PyStr PyStrFacts TorchOpRegistry TorchOpRegistrySpec.

Lemma get_func_dunder self s :
  dunder s → get_func self s = name_to_func_mapping self !! slice s (Some 2%Z) (Some (-2)%Z).
Proof. intros [H1 H2]. unfold get_func. rewrite H1, H2. reflexivity. Qed.

Lemma get_func_plain self s :
  endswith s "_" = false → get_func self s = name_to_func_mapping self !! s.
Proof.
  intros H. unfold get_func. rewrite H.
  destruct (endswith s "__") eqn:E; [apply endswith_2_1 in E; congruence|].
  rewrite andb_false_r. reflexivity.
Qed.

Lemma dunder_wrap n : dunder ("__" ++ n ++ "__").
Proof.
  split.
  - apply startswith_iff. eauto.
  - rewrite <- app_assoc_s. apply endswith_app.
Qed.

(** *** The loop of [register_func] *)

Lemma register_one_inplace func override name self :
  endswith name "_" = true →
  register_one func override name self = (inl (Exception name), self).
Proof. intros H. unfold register_one. rewrite H. reflexivity. Qed.

Lemma register_one_duplicate func name self :
  endswith name "_" = false →
  is_Some (name_to_func_mapping self !! name) →
  register_one func false name self = (inl (ValueError name), self).
Proof.
  intros H1 H2. unfold register_one. rewrite H1.
  unfold mbind, M_bind, get_self. simpl. rewrite bool_decide_eq_true_2 by done. reflexivity.
Qed.

Lemma register_one_ok func override name self :
  endswith name "_" = false →
  (override = true ∨ name_to_func_mapping self !! name = None) →
  register_one func override name self =
    (inr tt, {| name_to_func_mapping := <[name := func]> (name_to_func_mapping self) |}).
Proof.
  intros H1 H2. unfold register_one. rewrite H1.
  unfold mbind, M_bind, get_self. simpl.
  destruct H2 as [-> | H2]; [reflexivity|].
  rewrite bool_decide_eq_false_2; [|rewrite H2; by intros [? ?]].
  rewrite andb_false_r. reflexivity.
Qed.

(** Every outcome of one iteration. *)
Lemma register_one_cases func override name self :
  (endswith name "_" = true ∧
    register_one func override name self = (inl (Exception name), self)) ∨
  (endswith name "_" = false ∧ override = false ∧
    is_Some (name_to_func_mapping self !! name) ∧
    register_one func override name self = (inl (ValueError name), self)) ∨
  (endswith name "_" = false ∧
    (override = true ∨ name_to_func_mapping self !! name = None) ∧
    register_one func override name self =
      (inr tt, {| name_to_func_mapping := <[name := func]> (name_to_func_mapping self) |})).
Proof.
  destruct (endswith name "_") eqn:E.
  - left. split; [done|]. by apply register_one_inplace.
  - right. destruct override.
    + right. split; [done|]. split; [by left|]. apply register_one_ok; auto.
    + destruct (name_to_func_mapping self !! name) eqn:L.
      * left. repeat split; eauto. apply register_one_duplicate; eauto.
      * right. split; [done|]. split; [by right|]. apply register_one_ok; auto.
Qed.

Lemma for_in_cons {A} (x : A) l body self :
  for_in (x :: l) body self =
    match body x self with
    | (inr _, self') => for_in l body self'
    | (inl e, self') => (inl e, self')
    end.
Proof. reflexivity. Qed.

Lemma bind_all_cons func n names self :
  bind_all func (n :: names) self =
    bind_all func names
      {| name_to_func_mapping := <[n := func]> (name_to_func_mapping self) |}.
Proof. reflexivity. Qed.

Lemma bind_all_lookup func names : ∀ self k,
  name_to_func_mapping (bind_all func names self) !! k =
    if bool_decide (k ∈ names) then Some func else name_to_func_mapping self !! k.
Proof.
  induction names as [|n names IH]; intros self k.
  - reflexivity.
  - rewrite bind_all_cons, IH. simpl.
    destruct (decide (k ∈ names)) as [Hin|Hnin].
    + rewrite !bool_decide_eq_true_2; [done | by right | done].
    + rewrite (bool_decide_eq_false_2 _ Hnin).
      destruct (decide (k = n)) as [->|Hne].
      * rewrite lookup_insert_eq, bool_decide_eq_true_2; [done | by left].
      * rewrite lookup_insert_ne by done.
        rewrite bool_decide_eq_false_2; [done|].
        intros [?|?]%elem_of_cons; done.
Qed.

(** How a run of the loop ends: either every name was bound, or the
    names before the first offending one were bound and stay bound. *)
Lemma for_in_register_run func override names : ∀ self,
  (Forall (λ n, endswith n "_" = false) names ∧
   for_in names (register_one func override) self = (inr tt, bind_all func names self)) ∨
  (∃ pre bad post e,
     names = (pre ++ bad :: post)%list ∧
     Forall (λ n, endswith n "_" = false) pre ∧
     for_in pre (register_one func override) self = (inr tt, bind_all func pre self) ∧
     register_one func override bad (bind_all func pre self)
       = (inl e, bind_all func pre self) ∧
     (e = Exception bad ∨ e = ValueError bad) ∧
     for_in names (register_one func override) self = (inl e, bind_all func pre self)).
Proof.
  induction names as [|n names IH]; intros self.
  - left. split; [apply Forall_nil_2 | by destruct self].
  - rewrite for_in_cons.
    destruct (register_one_cases func override n self)
      as [[E R] | [(E & _ & _ & R) | (E & _ & R)]].
    + right. exists [], n, names, (Exception n). rewrite R. simpl.
      destruct self. repeat split; auto.
    + right. exists [], n, names, (ValueError n). rewrite R. simpl.
      destruct self. repeat split; auto.
    + rewrite R.
      destruct (IH {| name_to_func_mapping := <[n := func]> (name_to_func_mapping self) |})
        as [[F R'] | (pre & bad & post & e & -> & F & Rpre & Rbad & He & R')].
      * left. split; [by apply Forall_cons_2 | by rewrite R'].
      * right. exists (n :: pre), bad, post, e. rewrite bind_all_cons.
        split_and!;
          [ done | by apply Forall_cons_2 | rewrite for_in_cons, R; exact Rpre
          | exact Rbad | exact He | exact R' ].
Qed.

(** Exactly one trailing underscore is stripped: with [add] registered,
    [add__] is looked up under the unregistered key [add_], while [add_]
    finds the handler of [add]. *)
Lemma get_func_strips_one_underscore :
  get_func registry_add ("add_" ++ "_") = None ∧
  get_func registry_add "add_" = Some add_handler ∧
  ¬ (∀ (self : TorchOpsRegistry) (n : string),
       get_func self (n ++ "_") = get_func self n).
Proof.
  assert (H1 : get_func registry_add ("add_" ++ "_") = None) by (vm_compute; reflexivity).
  assert (H2 : get_func registry_add "add_" = Some add_handler) by (vm_compute; reflexivity).
  split_and!; [exact H1 | exact H2 |].
  intros H. specialize (H registry_add "add_"). rewrite H1, H2 in H. discriminate.
Qed.

(** C6: name canonicalization before lookup.  For a name [n] without
    underscores, [get_func] of ["__" + n + "__"] is [get_func] of [n], the
    handler bound to [n]; for a name [n + "_"] with a single trailing
    underscore, that is for [n] not itself ending in an underscore,
    [get_func] of [n + "_"] is [get_func] of [n]; and a dunder-wrapped
    name, which also ends in an underscore, is resolved by the dunder
    rule alone: its key is [s[2:-2]], never [s[:-1]]. *)
Theorem get_func_canonicalization (self : TorchOpsRegistry) :
  (∀ n h, name_to_func_mapping self !! n = Some h → has_underscore n = false →
     get_func self ("__" ++ n ++ "__") = Some h ∧ get_func self n = Some h) ∧
  (∀ n, has_underscore n = false →
     get_func self ("__" ++ n ++ "__") = get_func self n) ∧
  (∀ n, endswith n "_" = false →
     get_func self (n ++ "_") = get_func self n ∧
     get_func self n = name_to_func_mapping self !! n) ∧
  (∀ s, startswith s "__" = true → endswith s "__" = true →
     endswith s "_" = true ∧
     get_func self s = name_to_func_mapping self !! slice s (Some 2%Z) (Some (-2)%Z)).
Proof.
  assert (Hwrap : ∀ n, has_underscore n = false →
            get_func self ("__" ++ n ++ "__") = name_to_func_mapping self !! n ∧
            get_func self n = name_to_func_mapping self !! n).
  { intros n Hn. split.
    - rewrite get_func_dunder by apply dunder_wrap. by rewrite slice_dunder.
    - apply get_func_plain, no_underscore_endswith, Hn. }
  split_and!.
  - intros n h Hh Hn. destruct (Hwrap n Hn) as [-> ->]. done.
  - intros n Hn. destruct (Hwrap n Hn) as [-> ->]. done.
  - intros n Hn. split; [|by apply get_func_plain].
    rewrite (get_func_plain self n Hn). unfold get_func.
    rewrite (not_endswith_app_underscore n Hn), andb_false_r.
    rewrite endswith_app, slice_inplace. reflexivity.
  - intros s H1 H2. split; [by apply endswith_2_1|]. by apply get_func_dunder.
Qed.

Lemma get_func_canonicalization_witness :
  get_func registry_add "__add__" = Some add_handler ∧
  get_func registry_add "add_" = get_func registry_add "add" ∧
  get_func registry_add "__add__" =
    name_to_func_mapping registry_add !! slice "__add__" (Some 2%Z) (Some (-2)%Z).
Proof.
  destruct (get_func_canonicalization registry_add) as (H1 & _ & H3 & H4).
  split_and!.
  - apply (H1 "add" add_handler); vm_compute; reflexivity.
  - apply (H3 "add"). vm_compute; reflexivity.
  - apply (H4 "__add__"); vm_compute; reflexivity.
Defined.

Lemma register_func_unfold func torch_alias override self :
  register_func func torch_alias override self =
    for_in (all_f_names func torch_alias) (register_one func override) self.
Proof. reflexivity. Qed.

Lemma own_name_first func torch_alias :
  ∃ aliases, all_f_names func torch_alias = __name__ func :: aliases.
Proof. unfold all_f_names. eauto. Qed.

Lemma for_in_duplicate_raises func name names : ∀ self,
  name ∈ names → is_Some (name_to_func_mapping self !! name) →
  ∃ e self', for_in names (register_one func false) self = (inl e, self').
Proof.
  induction names as [|n names IH]; intros self Hin Hb.
  - by apply elem_of_nil in Hin.
  - rewrite for_in_cons.
    destruct (register_one_cases func false n self)
      as [[E R] | [(E & _ & _ & R) | (E & Hor & R)]]; rewrite R; eauto.
    destruct (decide (name = n)) as [->|Hne].
    + destruct Hor as [?|Hnone]; [discriminate|].
      rewrite Hnone in Hb. by destruct Hb.
    + apply elem_of_cons in Hin as [?|Hin]; [done|].
      apply IH; auto. simpl. by rewrite lookup_insert_ne.
Qed.

Lemma for_in_inplace_raises func override names self name :
  name ∈ names → endswith name "_" = true →
  ∃ e self', for_in names (register_one func override) self = (inl e, self').
Proof.
  intros Hin Hends.
  destruct (for_in_register_run func override names self)
    as [[F _] | (pre & bad & post & e & _ & _ & _ & _ & _ & R)]; [|eauto].
  rewrite Forall_forall in F. rewrite (F name Hin) in Hends. discriminate.
Qed.

(** C7, as stated, fails: [add] is bound and [override] is true, yet
    the call with the alias [sum_] raises, after it has rebound [add]. *)
Lemma register_func_override_counterexample :
  is_Some (name_to_func_mapping registry_add !! "add") ∧
  register_func add_handler' (Some ["sum_"]) true registry_add
    = (inl (Exception "sum_"), bind_all add_handler' ["add"] registry_add) ∧
  ¬ (∀ (func : Callable) (torch_alias : option (list string))
       (self : TorchOpsRegistry) (name : string),
       name ∈ all_f_names func torch_alias →
       is_Some (name_to_func_mapping self !! name) →
       ∃ self', register_func func torch_alias true self = (inr tt, self')).
Proof.
  assert (H1 : is_Some (name_to_func_mapping registry_add !! "add"))
    by (vm_compute; eauto).
  assert (H2 : register_func add_handler' (Some ["sum_"]) true registry_add
               = (inl (Exception "sum_"), bind_all add_handler' ["add"] registry_add))
    by (vm_compute; reflexivity).
  split_and!; [exact H1 | exact H2 |].
  intros H. destruct (H add_handler' (Some ["sum_"]) registry_add "add") as [self' H'].
  - by left.
  - exact H1.
  - rewrite H2 in H'. discriminate.
Qed.

(** C7 (amended): [register_func] raises whenever one of its target names (the
    function's own name or an alias) ends in an underscore; it raises
    whenever a target name is already bound and [override] is false; and
    with [override] true it succeeds exactly when no target name ends in
    an underscore, and then binds every target name, bound before or
    not, to the new handler and leaves the other keys as they were. *)
Theorem register_func_errors (func : Callable) (torch_alias : option (list string))
    (self : TorchOpsRegistry) :
  (∀ override name,
     name ∈ all_f_names func torch_alias → endswith name "_" = true →
     ∃ e self', register_func func torch_alias override self = (inl e, self')) ∧
  (∀ name,
     name ∈ all_f_names func torch_alias →
     is_Some (name_to_func_mapping self !! name) →
     ∃ e self', register_func func torch_alias false self = (inl e, self')) ∧
  ((∃ self', register_func func torch_alias true self = (inr tt, self')) ↔
     Forall (λ n, endswith n "_" = false) (all_f_names func torch_alias)) ∧
  (∀ self',
     register_func func torch_alias true self = (inr tt, self') →
     (∀ name, name ∈ all_f_names func torch_alias →
        name_to_func_mapping self' !! name = Some func) ∧
     (∀ k, k ∉ all_f_names func torch_alias →
        name_to_func_mapping self' !! k = name_to_func_mapping self !! k)).
Proof.
  split_and!.
  - intros override name Hin Hends. rewrite register_func_unfold.
    by apply for_in_inplace_raises with (name := name).
  - intros name Hin Hbound. rewrite register_func_unfold.
    destruct (for_in_register_run func false (all_f_names func torch_alias) self)
      as [[F R] | (pre & bad & post & e & _ & _ & _ & _ & _ & R)]; [|eauto].
    exfalso. destruct (for_in_duplicate_raises func name _ self Hin Hbound) as (e & self' & R').
    rewrite R' in R. discriminate.
  - rewrite register_func_unfold.
    destruct (for_in_register_run func true (all_f_names func torch_alias) self)
      as [[F R] | (pre & bad & post & e & Hn & F & _ & Rbad & _ & R)].
    + split; [done | eauto].
    + split.
      * intros [self' H]. rewrite R in H. discriminate.
      * intros F'. rewrite Hn in F'.
        apply Forall_app in F' as [_ F']. apply Forall_cons in F' as [Fb _].
        rewrite register_one_ok in Rbad by auto. discriminate.
  - intros self'. rewrite register_func_unfold.
    destruct (for_in_register_run func true (all_f_names func torch_alias) self)
      as [[F R] | (pre & bad & post & e & _ & _ & _ & _ & _ & R)];
      rewrite R; [|discriminate].
    intros [= <-]. split.
    + intros name Hin. rewrite bind_all_lookup. by rewrite bool_decide_eq_true_2.
    + intros k Hk. rewrite bind_all_lookup. by rewrite bool_decide_eq_false_2.
Qed.

Lemma register_func_errors_witness :
  (∃ e self', register_func add_handler (Some ["sum_"]) true registry_add = (inl e, self')) ∧
  (∃ e self', register_func add_handler' None false registry_add = (inl e, self')) ∧
  (∃ self', register_func add_handler' (Some ["plus"]) true registry_add = (inr tt, self')) ∧
  name_to_func_mapping
    (register_func add_handler' (Some ["plus"]) true registry_add).2 !! "add"
    = Some add_handler'.
Proof.
  split_and!.
  - apply (register_func_errors add_handler (Some ["sum_"]) registry_add) with (name := "sum_");
      [by right; left | reflexivity].
  - apply (register_func_errors add_handler' None registry_add) with (name := "add");
      [by left | vm_compute; eauto].
  - apply (register_func_errors add_handler' (Some ["plus"]) registry_add).
    repeat constructor.
  - apply (register_func_errors add_handler' (Some ["plus"]) registry_add);
      [vm_compute; reflexivity | by left].
Defined.

(** C9: [register_func] is not atomic.  When it raises, the target names
    split as [pre ++ bad :: post] with [bad] the name the exception is
    about (it ends in an underscore, or it is bound and [override] is
    false); the registry the caller is left with is the one in which
    every name of [pre] has been bound to [func], and, unless the
    function's own name is the offending one, the function's own name is
    among them. *)
Theorem register_func_not_atomic (func : Callable) (torch_alias : option (list string))
    (override : bool) (self self' : TorchOpsRegistry) (e : exn) :
  register_func func torch_alias override self = (inl e, self') →
  ∃ pre bad post,
    all_f_names func torch_alias = (pre ++ bad :: post)%list ∧
    ((e = Exception bad ∧ endswith bad "_" = true) ∨
     (e = ValueError bad ∧ override = false ∧
      is_Some (name_to_func_mapping self' !! bad))) ∧
    self' = bind_all func pre self ∧
    (∀ n, n ∈ pre → name_to_func_mapping self' !! n = Some func) ∧
    (pre ≠ [] → name_to_func_mapping self' !! __name__ func = Some func).
Proof.
  rewrite register_func_unfold. intros H.
  destruct (for_in_register_run func override (all_f_names func torch_alias) self)
    as [[_ R] | (pre & bad & post & e' & Hn & F & _ & Rbad & _ & R)];
    rewrite R in H; [discriminate|].
  injection H as -> <-.
  exists pre, bad, post.
  assert (Hpre : ∀ n, n ∈ pre →
            name_to_func_mapping (bind_all func pre self) !! n = Some func).
  { intros n Hin. rewrite bind_all_lookup. by rewrite bool_decide_eq_true_2. }
  split_and!; [done | | done | done |].
  - destruct (register_one_cases func override bad (bind_all func pre self))
      as [[E R1] | [(E & Ho & Hb & R1) | (E & _ & R1)]];
      rewrite R1 in Rbad; [left | right | discriminate].
    + by injection Rbad as <-.
    + by injection Rbad as <-.
  - intros Hne. apply Hpre.
    destruct (own_name_first func torch_alias) as [aliases Ha].
    rewrite Ha in Hn. destruct pre as [|p pre]; [done|].
    injection Hn as -> _. by left.
Qed.

Lemma register_func_not_atomic_witness :
  ∃ pre bad post,
    all_f_names add_handler (Some ["plus"; "minus_"; "times"])
      = (pre ++ bad :: post)%list ∧
    ((Exception "minus_" = Exception bad ∧ endswith bad "_" = true) ∨
     (Exception "minus_" = ValueError bad ∧ false = false ∧
      is_Some (name_to_func_mapping
        (register_func add_handler (Some ["plus"; "minus_"; "times"]) false __init__).2
          !! bad))) ∧
    (register_func add_handler (Some ["plus"; "minus_"; "times"]) false __init__).2
      = bind_all add_handler pre __init__ ∧
    (∀ n, n ∈ pre →
       name_to_func_mapping
         (register_func add_handler (Some ["plus"; "minus_"; "times"]) false __init__).2
         !! n = Some add_handler) ∧
    (pre ≠ [] →
       name_to_func_mapping
         (register_func add_handler (Some ["plus"; "minus_"; "times"]) false __init__).2
         !! __name__ add_handler = Some add_handler).
Proof.
  apply (register_func_not_atomic add_handler (Some ["plus"; "minus_"; "times"])
           false __init__).
  vm_compute. reflexivity.
Defined.

(** C10: [register_func] rejects every name that ends in an underscore,
    and a dunder-wrapped name is one: the loop body raises on it, a call
    with a dunder-wrapped target name raises, no call (raising or not)
    changes what a dunder-wrapped key is bound to, and [get_func] resolves
    a dunder-wrapped name through the stripped key [d[2:-2]] only. *)
Theorem register_func_rejects_dunder (func : Callable)
    (torch_alias : option (list string)) (override : bool) (self : TorchOpsRegistry) :
  (∀ name, endswith name "_" = true →
     register_one func override name self = (inl (Exception name), self)) ∧
  (∀ d, startswith d "__" = true → endswith d "__" = true →
     endswith d "_" = true ∧
     (d ∈ all_f_names func torch_alias →
        ∃ e self', register_func func torch_alias override self = (inl e, self')) ∧
     name_to_func_mapping (register_func func torch_alias override self).2 !! d
       = name_to_func_mapping self !! d ∧
     get_func self d = name_to_func_mapping self !! slice d (Some 2%Z) (Some (-2)%Z)).
Proof.
  split.
  - intros name H. by apply register_one_inplace.
  - intros d H1 H2. pose proof (endswith_2_1 d H2) as H3. split_and!; [done | | |].
    + intros Hin. rewrite register_func_unfold.
      by apply for_in_inplace_raises with (name := d).
    + rewrite register_func_unfold.
      assert (Hkeep : ∀ pre, Forall (λ n, endswith n "_" = false) pre →
                name_to_func_mapping (bind_all func pre self) !! d
                  = name_to_func_mapping self !! d).
      { intros pre F. rewrite bind_all_lookup, bool_decide_eq_false_2; [done|].
        intros Hin. rewrite Forall_forall in F. rewrite (F d Hin) in H3. discriminate. }
      destruct (for_in_register_run func override (all_f_names func torch_alias) self)
        as [[F R] | (pre & bad & post & e & _ & F & _ & _ & _ & R)];
        rewrite R; cbn [snd]; by apply Hkeep.
    + by apply get_func_dunder.
Qed.

Lemma register_func_rejects_dunder_witness :
  register_one and_handler false "__and__" __init__ = (inl (Exception "__and__"), __init__) ∧
  (∃ e self', register_func and_handler None false __init__ = (inl e, self')) ∧
  get_func registry_add "__add__" = Some add_handler.
Proof.
  destruct (register_func_rejects_dunder and_handler None false __init__) as [H1 H2].
  destruct (register_func_rejects_dunder add_handler None false registry_add) as [_ H3].
  split_and!.
  - apply H1. reflexivity.
  - destruct (H2 "__and__") as (_ & Hraise & _); [reflexivity.. |].
    apply Hraise. by left.
  - destruct (H3 "__add__") as (_ & _ & _ & ->); vm_compute; reflexivity.
Defined.

(** *** The containment query *)

Lemma substring_0_length t : String.substring 0 (String.length t) t = t.
Proof. induction t as [|c t IH]; simpl; [reflexivity | by rewrite IH]. Qed.

Lemma strip_aten_suffix name : ∃ p, name = p ++ strip_aten name.
Proof.
  unfold strip_aten. destruct (startswith name "aten.") eqn:E; [|by exists ""].
  apply startswith_iff in E as [t ->]. exists "aten.".
  unfold slice, bound. rewrite length_app_s. simpl String.length.
  replace (5 <? 0)%Z with false by reflexivity.
  replace (Nat.min (Z.to_nat 5) (5 + String.length t)) with 5 by lia.
  replace (5 + String.length t - 5) with (String.length t) by lia.
  rewrite !app_cons_s, app_nil_s. simpl String.substring.
  by rewrite substring_0_length.
Qed.

Lemma strip_aten_endswith name :
  endswith name "_" = false → endswith (strip_aten name) "_" = false.
Proof.
  intros H. destruct (endswith (strip_aten name) "_") eqn:E; [|done].
  apply endswith_iff in E as [q Hq].
  destruct (strip_aten_suffix name) as [p Hp]. rewrite Hq, <- app_assoc_s in Hp.
  rewrite Hp, endswith_app in H. discriminate.
Qed.

(** C8, as stated, fails: with [add] registered, the canonicalization of
    [add_] is bound ([get_func] finds the handler), yet the containment
    query on [add_] is false. *)
Lemma contains_not_canonicalized_counterexample :
  name_to_func_mapping registry_add !! "add" = Some add_handler ∧
  get_func registry_add "add_" = Some add_handler ∧
  __contains__ registry_add "add_" = false ∧
  ¬ (∀ (self : TorchOpsRegistry) (k : string),
       __contains__ self k = true ↔ is_Some (get_func self k)).
Proof.
  assert (H1 : get_func registry_add "add_" = Some add_handler) by (vm_compute; reflexivity).
  assert (H2 : __contains__ registry_add "add_" = false) by (vm_compute; reflexivity).
  split_and!; [vm_compute; reflexivity | exact H1 | exact H2 |].
  intros H. destruct (H registry_add "add_") as [_ H'].
  rewrite H2 in H'. rewrite H1 in H'. discriminate H'. eauto.
Qed.

(** C8 (amended): the containment query is raw, not canonicalized.  It
    holds exactly when the key itself is bound; it agrees with the
    canonicalizing [get_func] on every key that does not end in an
    underscore; and [is_torch_fx_node_supported] raises on a
    [call_function] target whose name ends in an underscore and otherwise
    answers with the raw containment of the name without its [aten.]
    prefix, a key on which raw and canonicalized lookup agree; this
    holds whatever the lower-casing function [lower]. *)
Theorem contains_is_raw_membership (lower : string → string) (self : TorchOpsRegistry) :
  (∀ k, __contains__ self k = true ↔ is_Some (name_to_func_mapping self !! k)) ∧
  (∀ k, endswith k "_" = false →
     (__contains__ self k = true ↔ is_Some (get_func self k))) ∧
  (∀ node, op node ≠ "call_function" →
     is_torch_fx_node_supported lower self node = inr false) ∧
  (∀ node, op node = "call_function" → endswith (target_name lower node) "_" = true →
     is_torch_fx_node_supported lower self node = inl AssertionError) ∧
  (∀ node, op node = "call_function" → endswith (target_name lower node) "_" = false →
     is_torch_fx_node_supported lower self node
       = inr (__contains__ self (strip_aten (target_name lower node))) ∧
     (__contains__ self (strip_aten (target_name lower node)) = true ↔
        is_Some (get_func self (strip_aten (target_name lower node))))).
Proof.
  assert (Hraw : ∀ k, __contains__ self k = true ↔ is_Some (name_to_func_mapping self !! k)).
  { intros k. unfold __contains__. apply bool_decide_eq_true. }
  assert (Hplain : ∀ k, endswith k "_" = false →
            (__contains__ self k = true ↔ is_Some (get_func self k))).
  { intros k Hk. rewrite Hraw, get_func_plain by done. done. }
  split_and!; [exact Hraw | exact Hplain | | |].
  - intros node Hop. unfold is_torch_fx_node_supported.
    destruct (String.eqb_spec (op node) "call_function"); [done | reflexivity].
  - intros node Hop Hends. unfold is_torch_fx_node_supported.
    rewrite Hop. simpl negb. cbv iota. fold (target_name lower node). by rewrite Hends.
  - intros node Hop Hends. split.
    + unfold is_torch_fx_node_supported.
      rewrite Hop. simpl negb. cbv iota. fold (target_name lower node). rewrite Hends.
      reflexivity.
    + apply Hplain, strip_aten_endswith, Hends.
Qed.

Lemma contains_is_raw_membership_witness :
  (__contains__ registry_add "add" = true ↔ is_Some (get_func registry_add "add")) ∧
  is_torch_fx_node_supported lower_ascii registry_add add__node = inl AssertionError ∧
  is_torch_fx_node_supported lower_ascii registry_add add_node
    = inr (__contains__ registry_add (strip_aten (target_name lower_ascii add_node))).
Proof.
  destruct (contains_is_raw_membership lower_ascii registry_add) as (_ & H2 & _ & H4 & H5).
  split_and!.
  - apply H2. vm_compute; reflexivity.
  - apply H4; vm_compute; reflexivity.
  - apply H5; vm_compute; reflexivity.
Defined.

End TorchOpRegistryProofs.

Module NoopEliminationProofs.
Import NoopElimination NoopEliminationSpec.
Local Open Scope nat_scope.
Local Open Scope list_scope.

(** *** Induction over nested blocks *)

Section tree_induction.
Variables (P : Operation → Prop) (Q : Block → Prop).
Hypothesis Hop : ∀ n t ins outs bs, Forall Q bs → P (mkOperation n t ins outs bs).
Hypothesis Hblock : ∀ ops outs, Forall P ops → Q (mkBlock ops outs).

Lemma Operation_tree_ind (op : Operation) : P op.
Proof.
  revert op.
  exact
    (fix go (op : Operation) : P op :=
       match op with
       | mkOperation n t ins outs bs =>
           Hop n t ins outs bs
             ((fix go_blocks (bs : list Block) : Forall Q bs :=
                 match bs with
                 | [] => Forall_nil_2 Q
                 | b :: bs' =>
                     Forall_cons_2 Q b bs'
                       (match b with
                        | mkBlock ops outs' =>
                            Hblock ops outs'
                              ((fix go_ops (ops : list Operation) : Forall P ops :=
                                  match ops with
                                  | [] => Forall_nil_2 P
                                  | o :: ops' =>
                                      Forall_cons_2 P o ops' (go o) (go_ops ops')
                                  end) ops)
                        end)
                       (go_blocks bs')
                 end) bs)
       end).
Qed.
End tree_induction.

(** *** The monad *)

Lemma outputs_0_cons op out0 rest :
  outputs op = out0 :: rest → outputs_0 op = Return out0.
Proof. unfold outputs_0. by intros ->. Qed.

Lemma outputs_0_inv op out0 :
  outputs_0 op = Return out0 → ∃ rest, outputs op = out0 :: rest.
Proof. unfold outputs_0. destruct (outputs op); [discriminate|]. intros [= ->]. eauto. Qed.

Lemma outputs_0_fuel op : outputs_0 op ≠ OutOfFuel.
Proof. unfold outputs_0. by destruct (outputs op). Qed.

Lemma getattr_fuel op a : getattr op a ≠ OutOfFuel.
Proof. unfold getattr. by destruct (lookup_input a (inputs op)). Qed.

(** *** The removal strategies are uniform in the block *)

Lemma ne_cond_fuel v x : ne_cond v x ≠ OutOfFuel.
Proof. by destruct v as [[?|[|?[|??]]]|]. Qed.

Ltac attr_cases op a :=
  destruct (getattr op a) as [?v|?e|] eqn:?;
    [ | | by destruct (getattr_fuel op a) ].

Ltac out0_cases op :=
  destruct (outputs_0 op) as [?o|?e|] eqn:?;
    [ | | by destruct (outputs_0_fuel op) ].

Ltac uniform_solve :=
  first
    [ by (left; eexists; intros ?; reflexivity)
    | by (right; left; intros ?; reflexivity)
    | by (right; right; eexists _, _; split; [reflexivity | intros ?; reflexivity]) ].

Ltac uniform_step :=
  match goal with
  | |- context [ne_cond ?a ?x] =>
      destruct (ne_cond a x) as [[|]|?e|] eqn:?;
        [ | | | by destruct (ne_cond_fuel a x) ]
  | |- context [bool_decide ?P] => destruct (bool_decide P)
  | |- context [val ?v] => destruct (val v) as [?a|]
  | |- context [np_all_eq ?a ?x] => destruct (np_all_eq a x)
  | |- context [np_any_ne ?a ?x] => destruct (np_any_ne a x)
  | |- context [match ?a with Scalar _ => _ | Array _ => _ end] => destruct a
  end.

Ltac uniform_go := repeat (cbn; first [ uniform_solve | uniform_step ]).

Lemma _remove_elementwise_binary_uniform x y :
  uniform (λ op b, _remove_elementwise_binary op b x y).
Proof.
  intros op. unfold _remove_elementwise_binary, rewire.
  attr_cases op "x"; attr_cases op "y"; out0_cases op;
    destruct x as [x|], y as [y|]; uniform_go.
Qed.

Lemma remove_elementwise_uniform : uniform remove_elementwise.
Proof.
  intros op. unfold remove_elementwise.
  repeat (destruct (bool_decide (op_type op ∈ _));
    [apply (_remove_elementwise_binary_uniform _ _ op)|]).
  uniform_solve.
Qed.

Lemma remove_same_shape_uniform : uniform remove_same_shape.
Proof.
  intros op. unfold remove_same_shape, rewire.
  attr_cases op "x"; out0_cases op; uniform_go.
Qed.

Lemma remove_linear_uniform : uniform remove_linear.
Proof.
  intros op. unfold remove_linear, rewire.
  attr_cases op "x"; attr_cases op "alpha"; attr_cases op "beta"; out0_cases op;
    uniform_go.
Qed.

Lemma remove_transpose_uniform : uniform remove_transpose.
Proof.
  intros op. unfold remove_transpose, rewire.
  attr_cases op "x"; attr_cases op "perm"; out0_cases op; uniform_go.
Qed.

(** *** The matcher *)

Lemma dict_get_uniform key f :
  dict_get key op_to_removal_fn = Some f → uniform f.
Proof.
  unfold op_to_removal_fn. cbn [dict_get].
  repeat (case_decide;
    [ intros [= <-];
      first [ apply remove_elementwise_uniform | apply remove_same_shape_uniform
            | apply remove_transpose_uniform | apply remove_linear_uniform ] | ]).
  discriminate.
Qed.

Lemma _match_pattern_fuel op block : _match_pattern op block ≠ OutOfFuel.
Proof.
  unfold _match_pattern. out0_cases op; cbn; [|done].
  repeat case_bool_decide; try done. by case_match.
Qed.

Lemma _match_pattern_outputs op b1 b2 :
  block_outputs b1 = block_outputs b2 → _match_pattern op b1 = _match_pattern op b2.
Proof. unfold _match_pattern. by intros ->. Qed.

Lemma _match_pattern_Some op block f :
  _match_pattern op block = Return (Some f) →
  uniform f ∧
  ∃ out0, outputs op = [out0] ∧ (out0 ∉ block_outputs block) ∧
          op_type op ∈ _SUPPORTED_OPS ∧
          dict_get (op_type op) op_to_removal_fn = Some f.
Proof.
  unfold _match_pattern. out0_cases op; cbn [mbind outcome_bind mret outcome_ret]; [|done].
  apply outputs_0_inv in Heqo as [rest Hout].
  repeat case_bool_decide; try done.
  destruct (dict_get (op_type op) op_to_removal_fn) as [f'|] eqn:Hd; [|done].
  intros [= <-].
  split; [by apply (dict_get_uniform (op_type op))|].
  exists o. split_and!; [|done..]. rewrite Hout in *.
  destruct rest; [done|]. simpl in *. lia.
Qed.


(** *** Sizes *)

Lemma op_size_blocks op : op_size op = S (list_sum (map block_size (blocks op))).
Proof.
  destruct op as [n t ins outs bs]. simpl. f_equal. f_equal.
  apply map_ext. by intros [ops bouts].
Qed.

Lemma block_size_pos b : 0 < block_size b.
Proof. unfold block_size. lia. Qed.

Lemma list_sum_app_nat (l1 l2 : list nat) :
  list_sum (l1 ++ l2) = list_sum l1 + list_sum l2.
Proof. induction l1; simpl; lia. Qed.

Lemma replace_in_op_name old new op : name (replace_in_op old new op) = name op.
Proof. by destruct op. Qed.

Lemma replace_in_op_size old new op : op_size (replace_in_op old new op) = op_size op.
Proof.
  induction op as [n t ins outs bs IH | ops bouts IH]
    using Operation_tree_ind
    with (Q := λ b, list_sum (map op_size (map (replace_in_op old new) (operations b)))
                    = list_sum (map op_size (operations b))).
  - simpl. f_equal. f_equal. rewrite map_map.
    induction IH as [|[ops bouts] bs Hb _ IHbs]; [done|]. simpl in *. congruence.
  - simpl. induction IH as [|o ops Ho _ IHops]; [done|]. simpl. congruence.
Qed.

Lemma replace_uses_size block anchor old new :
  block_size (replace_uses_of_var_after_op block anchor old new) = block_size block.
Proof.
  unfold block_size, replace_uses_of_var_after_op. simpl. f_equal.
  generalize (match anchor with
              | Some a => default 0 (find_op_id_in_block block a)
              | None => 0
              end) as start.
  intros start. rewrite <- (take_drop start (operations block)) at 3.
  rewrite !map_app, !list_sum_app_nat. f_equal.
  induction (drop start (operations block)) as [|o l IH]; [done|].
  simpl. by rewrite replace_in_op_size, IH.
Qed.

Lemma replace_uses_length block anchor old new :
  length (operations (replace_uses_of_var_after_op block anchor old new))
    = length (operations block).
Proof.
  unfold replace_uses_of_var_after_op. simpl.
  rewrite length_app, length_map, <- length_app, take_drop. done.
Qed.

Lemma replace_uses_names block anchor old new :
  map name (operations (replace_uses_of_var_after_op block anchor old new))
    = map name (operations block).
Proof.
  unfold replace_uses_of_var_after_op. simpl.
  rewrite map_app, map_map.
  rewrite (map_ext (λ x, name (replace_in_op old new x)) name)
    by (intros; apply replace_in_op_name).
  by rewrite <- map_app, take_drop.
Qed.

Lemma remove_op_size n ops :
  n ∈ map name ops →
  length (remove_op n ops) + 1 = length ops ∧
  list_sum (map op_size (remove_op n ops)) < list_sum (map op_size ops).
Proof.
  induction ops as [|o ops IH]; simpl; [by intros ?%elem_of_nil|].
  intros Hin. case_decide as Hn.
  - split; [lia|]. rewrite op_size_blocks. lia.
  - apply elem_of_cons in Hin as [->|Hin]; [done|].
    destruct (IH Hin). simpl. lia.
Qed.

Lemma rewire_size op block input_var out0 :
  name op ∈ map name (operations block) →
  length (operations (rewire op block input_var out0)) + 1 = length (operations block) ∧
  block_size (rewire op block input_var out0) < block_size block.
Proof.
  intros Hin. unfold rewire, remove_ops. cbn [foldl operations].
  set (b1 := replace_uses_of_var_after_op _ _ _ _).
  destruct (remove_op_size (name op) (operations b1)) as [H1 H2].
  { unfold b1. by rewrite replace_uses_names. }
  split.
  - unfold b1 in H1. by rewrite replace_uses_length in H1.
  - unfold block_size at 1. cbn [operations].
    pose proof (replace_uses_size block (var_op block input_var) out0 input_var) as Hs.
    rewrite <- Hs. fold b1. unfold block_size. lia.
Qed.

(** *** One step of the scan *)

Lemma list_insert_middle {A} (l1 l2 : list A) x y :
  <[length l1 := y]> (l1 ++ x :: l2) = l1 ++ y :: l2.
Proof.
  replace (length l1) with (length l1 + 0) by lia. by rewrite insert_app_r.
Qed.

Lemma snoc_middle {A} (l1 l2 : list A) x :
  (l1 ++ [x]) ++ l2 = l1 ++ x :: l2 ∧ length (l1 ++ [x]) = S (length l1).
Proof. rewrite <- app_assoc, length_app. simpl. split; [done | lia]. Qed.

Lemma scan_operations_raise self conv op rest i block e :
  for_blocks conv (blocks op) = Raise e →
  scan_operations self conv (op :: rest) i block = Raise e.
Proof. intros H. cbn [scan_operations]. by rewrite H. Qed.

Lemma scan_operations_fuel self conv op rest i block :
  for_blocks conv (blocks op) = OutOfFuel →
  scan_operations self conv (op :: rest) i block = OutOfFuel.
Proof. intros H. cbn [scan_operations]. by rewrite H. Qed.

(** What happens at an operation depends on the operation, on the
    declared outputs of the block and on the skip set only. *)
Lemma scan_operations_step self outs op' :
  ∃ k : step_kind,
    (∀ input_var out0, k = K_rewire input_var out0 →
       blocks op' = [] ∧ (outputs op' = [out0]) ∧ (out0 ∉ outs) ∧
       name op' ∉ ops_to_skip self) ∧
    (0 < length (blocks op') → k = K_continue) ∧
    (∀ e, k = K_raise e → raises_at outs op' e) ∧
    (∀ input_var out0, k = K_rewire input_var out0 →
       op_type op' ∈ _SUPPORTED_OPS) ∧
    ∀ conv op rest done,
      for_blocks conv (blocks op) = Return (blocks op') →
      set_blocks op (blocks op') = op' →
      scan_operations self conv (op :: rest) (length done)
          (mkBlock (done ++ op :: rest) outs) =
        match k with
        | K_continue =>
            scan_operations self conv rest (length (done ++ [op']))
              (mkBlock ((done ++ [op']) ++ rest) outs)
        | K_raise e => Raise e
        | K_rewire input_var out0 =>
            Return (true, rewire op' (mkBlock (done ++ op' :: rest) outs) input_var out0)
        end.
Proof.
  assert (Hbody : ∀ conv op rest done,
    for_blocks conv (blocks op) = Return (blocks op') →
    set_blocks op (blocks op') = op' →
    scan_operations self conv (op :: rest) (length done)
        (mkBlock (done ++ op :: rest) outs) =
      let block := mkBlock (done ++ op' :: rest) outs in
      let continue :=
        scan_operations self conv rest (length (done ++ [op']))
          (mkBlock ((done ++ [op']) ++ rest) outs) in
      if bool_decide (0 < length (blocks op')) then continue
      else
        remove_fn ← _match_pattern op' (mkBlock [] outs);
        match remove_fn with
        | Some remove_fn =>
            if bool_decide (name op' ∉ ops_to_skip self) then
              '(status, block') ← remove_fn op' block;
              if (status : bool) then mret (status, block')
              else scan_operations self conv rest (S (length done)) block'
            else continue
        | None => continue
        end).
  { intros conv op rest done Hfor Hset. cbn [scan_operations].
    rewrite Hfor. cbn [mbind outcome_bind]. rewrite Hset.
    unfold set_operations. cbn [operations block_outputs].
    rewrite list_insert_middle.
    destruct (snoc_middle done rest op') as [-> ->].
    by rewrite (_match_pattern_outputs op' (mkBlock (done ++ op' :: rest) outs)
                 (mkBlock [] outs)). }
  destruct (decide (0 < length (blocks op'))) as [Hnested|Hleaf].
  { exists K_continue. split_and!; [done..|].
    intros. rewrite Hbody by done. cbn zeta. by rewrite bool_decide_eq_true_2. }
  assert (blocks op' = []) as Hnil by (destruct (blocks op'); simpl in *; [done|lia]).
  destruct (_match_pattern op' (mkBlock [] outs)) as [[f|]|e|] eqn:Hm.
  - destruct (decide (name op' ∉ ops_to_skip self)) as [Hskip|Hskip].
    + destruct (_match_pattern_Some _ _ _ Hm) as (Hu & out0 & Hout & Hnin & Hsup & _).
      destruct (Hu op') as [[e He] | [Hd | (iv & o0 & Ho0 & Hr)]].
      * exists (K_raise e). split_and!; [done | lia | | done |].
        { intros ? [= <-]. right. eauto. }
        intros. rewrite Hbody by done. cbn zeta.
        rewrite bool_decide_eq_false_2 by done. cbn [mbind outcome_bind].
        rewrite bool_decide_eq_true_2 by done. by rewrite He.
      * exists K_continue. split_and!; [done..|].
        intros. rewrite Hbody by done. cbn zeta.
        rewrite bool_decide_eq_false_2 by done. cbn [mbind outcome_bind].
        rewrite bool_decide_eq_true_2 by done. rewrite Hd. cbn [mbind outcome_bind].
        by destruct (snoc_middle done rest op') as [-> ->].
      * exists (K_rewire iv o0). split_and!; [|lia|done|done|].
        { intros ?? [= <- <-]. rewrite (outputs_0_cons _ _ _ Hout) in Ho0.
          injection Ho0 as <-. done. }
        intros. rewrite Hbody by done. cbn zeta.
        rewrite bool_decide_eq_false_2 by done. cbn [mbind outcome_bind].
        rewrite bool_decide_eq_true_2 by done. by rewrite Hr.
    + exists K_continue. split_and!; [done..|].
      intros. rewrite Hbody by done. cbn zeta.
      rewrite bool_decide_eq_false_2 by done. cbn [mbind outcome_bind].
      by rewrite bool_decide_eq_false_2 by done.
  - exists K_continue. split_and!; [done..|].
    intros. rewrite Hbody by done. cbn zeta.
    by rewrite bool_decide_eq_false_2 by done.
  - exists (K_raise e). split_and!; [done | lia | | done |].
    { intros ? [= <-]. by left. }
    intros. rewrite Hbody by done. cbn zeta.
    by rewrite bool_decide_eq_false_2 by done.
  - by destruct (_match_pattern_fuel op' (mkBlock [] outs)).
Qed.

(** *** Termination *)

Lemma shrinks_le b1 b r :
  block_size b1 ≤ block_size b → shrinks b1 r → shrinks b r.
Proof.
  destruct r as [[c b']| |]; simpl; [|done..].
  intros Hle [H1 H2]. split; [lia|]. intros Hc. specialize (H2 Hc). lia.
Qed.

Lemma while_block_changed_converges step m : 
  (∀ b, block_size b ≤ m → shrinks b (step b)) →
  ∀ k b, block_size b ≤ k → block_size b ≤ m →
    converges b (while_block_changed step k b).
Proof.
  intros Hstep k. induction k as [|k IH]; intros b Hk Hm.
  - pose proof (block_size_pos b). lia.
  - cbn [while_block_changed]. specialize (Hstep b Hm).
    destruct (step b) as [[changed b']| |]; cbn; [|done..].
    destruct Hstep as [Hle Hlt]. destruct changed; [|done].
    specialize (Hlt eq_refl).
    assert (converges b' (while_block_changed step k b')) as H by (apply IH; lia).
    destruct (while_block_changed step k b'); simpl in *; [lia | done..].
Qed.

Lemma for_blocks_converges conv bs :
  Forall (λ nb, converges nb (conv nb)) bs →
  match for_blocks conv bs with
  | Return bs' =>
      length bs' = length bs ∧
      list_sum (map block_size bs') ≤ list_sum (map block_size bs)
  | Raise _ => True
  | OutOfFuel => False
  end.
Proof.
  induction 1 as [|nb bs Hnb _ IH]; cbn [for_blocks]; [done|].
  destruct (conv nb) as [nb'| |]; cbn [mbind outcome_bind]; [|done..].
  destruct (for_blocks conv bs) as [bs'| |]; cbn [mbind outcome_bind mret outcome_ret];
    [|done..].
  simpl in *. unfold block_size in *. destruct IH. split; lia.
Qed.

Lemma op_size_set_blocks op bs :
  op_size (set_blocks op bs) = S (list_sum (map block_size bs)).
Proof. by rewrite op_size_blocks. Qed.

Lemma block_size_middle done op rest outs :
  block_size (mkBlock (done ++ op :: rest) outs)
    = S (list_sum (map op_size done) + op_size op + list_sum (map op_size rest)).
Proof.
  unfold block_size. cbn [operations]. rewrite map_app, list_sum_app_nat. simpl. lia.
Qed.

Lemma list_sum_elem (l : list nat) x : x ∈ l → x ≤ list_sum l.
Proof.
  induction l as [|y l IH]; [by intros ?%elem_of_nil|].
  intros [->|Hin]%elem_of_cons; simpl; [lia|]. specialize (IH Hin). lia.
Qed.

Lemma scan_operations_shrinks self conv m :
  (∀ nb, block_size nb ≤ m → converges nb (conv nb)) →
  ∀ rest done outs,
    block_size (mkBlock (done ++ rest) outs) ≤ S m →
    shrinks (mkBlock (done ++ rest) outs)
      (scan_operations self conv rest (length done) (mkBlock (done ++ rest) outs)).
Proof.
  intros Hconv rest. induction rest as [|op rest IH]; intros done outs Hsize.
  - cbn. split; [lia | discriminate].
  - rewrite block_size_middle in Hsize.
    assert (Hnested : Forall (λ nb, converges nb (conv nb)) (blocks op)).
    { apply Forall_forall. intros nb Hin. apply Hconv.
      rewrite op_size_blocks in Hsize.
      assert (block_size nb ≤ list_sum (map block_size (blocks op)))
        by (apply list_sum_elem, list_elem_of_fmap; eauto).
      lia. }
    apply for_blocks_converges in Hnested.
    destruct (for_blocks conv (blocks op)) as [bs| |] eqn:Hfor; [| |done].
    2: { by rewrite (scan_operations_raise _ _ _ _ _ _ _ Hfor). }
    destruct Hnested as [_ Hbs].
    set (op' := set_blocks op bs).
    assert (Hop' : op_size op' ≤ op_size op).
    { unfold op'. rewrite op_size_set_blocks, op_size_blocks. lia. }
    destruct (scan_operations_step self outs op') as (k & Hk & _ & _ & _ & Hstep).
    rewrite (Hstep conv op rest done) by done.
    assert (Hle : block_size (mkBlock (done ++ op' :: rest) outs)
                  ≤ block_size (mkBlock (done ++ op :: rest) outs)).
    { rewrite !block_size_middle. lia. }
    destruct k as [|e|iv o0]; [| done |].
    + eapply shrinks_le; [|apply IH].
      * by destruct (snoc_middle done rest op') as [-> _].
      * destruct (snoc_middle done rest op') as [-> _].
        rewrite !block_size_middle in *. lia.
    + destruct (rewire_size op' (mkBlock (done ++ op' :: rest) outs) iv o0) as [_ Hlt].
      { cbn [operations]. rewrite map_app. apply elem_of_app. right. by left. }
      simpl. split; [lia | intros _; lia].
Qed.

Lemma _noop_elimination_block_shrinks self n :
  ∀ b, block_size b ≤ n → shrinks b (_noop_elimination_block self n b).
Proof.
  induction n as [|n IH]; intros b Hb.
  - pose proof (block_size_pos b). lia.
  - cbn [_noop_elimination_block]. destruct b as [ops outs]. cbn [operations].
    apply (scan_operations_shrinks self _ n) with (done := []); [|done].
    intros nb Hnb. apply (while_block_changed_converges _ n); [|lia..].
    intros b' Hb'. by apply IH.
Qed.

(** *** More fuel does not change an outcome *)

Lemma refines_bind {A B} (m1 m2 : outcome A) (k1 k2 : A → outcome B) :
  refines m1 m2 → (∀ a, refines (k1 a) (k2 a)) → refines (m1 ≫= k1) (m2 ≫= k2).
Proof.
  unfold refines. intros Hm Hk H. destruct m1 as [a| |]; [|by rewrite Hm|done].
  rewrite Hm by done. cbn in *. by apply Hk.
Qed.

Lemma refines_refl {A} (r : outcome A) : refines r r.
Proof. by intros _. Qed.

Lemma while_block_changed_mono step1 step2 :
  (∀ b, refines (step1 b) (step2 b)) →
  ∀ k1 k2 b, k1 ≤ k2 →
    refines (while_block_changed step1 k1 b) (while_block_changed step2 k2 b).
Proof.
  intros Hstep k1. induction k1 as [|k1 IH]; intros k2 b Hk; [by intros ?|].
  destruct k2 as [|k2]; [lia|]. cbn [while_block_changed].
  apply refines_bind; [apply Hstep|]. intros [[|] b'].
  - apply IH. lia.
  - apply refines_refl.
Qed.

Lemma for_blocks_mono conv1 conv2 :
  (∀ b, refines (conv1 b) (conv2 b)) →
  ∀ bs, refines (for_blocks conv1 bs) (for_blocks conv2 bs).
Proof.
  intros Hconv bs. induction bs as [|b bs IH]; cbn [for_blocks]; [apply refines_refl|].
  apply refines_bind; [apply Hconv|]. intros b'.
  apply refines_bind; [apply IH|]. intros bs'. apply refines_refl.
Qed.

Lemma scan_operations_mono self conv1 conv2 :
  (∀ b, refines (conv1 b) (conv2 b)) →
  ∀ snapshot i block,
    refines (scan_operations self conv1 snapshot i block)
            (scan_operations self conv2 snapshot i block).
Proof.
  intros Hconv snapshot.
  induction snapshot as [|op rest IH]; intros i block; cbn [scan_operations];
    [apply refines_refl|].
  apply refines_bind; [by apply for_blocks_mono|]. intros bs.
  cbn zeta. case_bool_decide; [apply IH|].
  apply refines_bind; [apply refines_refl|]. intros [f|]; [|apply IH].
  case_bool_decide; [|apply IH].
  apply refines_bind; [apply refines_refl|]. intros [[|] b']; [apply refines_refl|apply IH].
Qed.

Lemma _noop_elimination_block_mono self n1 :
  ∀ n2 b, n1 ≤ n2 →
    refines (_noop_elimination_block self n1 b) (_noop_elimination_block self n2 b).
Proof.
  induction n1 as [|n1 IH]; intros n2 b Hn; [by intros ?|].
  destruct n2 as [|n2]; [lia|]. cbn [_noop_elimination_block].
  apply scan_operations_mono. intros nb.
  apply while_block_changed_mono; [|lia]. intros b'. apply IH. lia.
Qed.

Lemma for_functions_mono body1 body2 :
  (∀ b, refines (body1 b) (body2 b)) →
  ∀ prog, refines (for_functions body1 prog) (for_functions body2 prog).
Proof.
  intros Hbody prog. induction prog as [|[fname f] prog IH]; cbn [for_functions];
    [apply refines_refl|].
  apply refines_bind; [apply Hbody|]. intros f'.
  apply refines_bind; [apply IH|]. intros prog'. apply refines_refl.
Qed.

Lemma apply_mono self n1 n2 prog :
  n1 ≤ n2 → refines (apply self n1 prog) (apply self n2 prog).
Proof.
  intros Hn. unfold apply. apply for_functions_mono. intros b.
  apply while_block_changed_mono; [|done]. intros b'.
  by apply _noop_elimination_block_mono.
Qed.

Lemma for_functions_converges body prog :
  Forall (λ f, converges f.2 (body f.2)) prog →
  for_functions body prog ≠ OutOfFuel.
Proof.
  induction 1 as [|[fname f] prog Hf _ IH]; cbn [for_functions]; [done|].
  simpl in Hf. destruct (body f) as [f'| |]; cbn [mbind outcome_bind]; [|done..].
  by destruct (for_functions body prog).
Qed.

Lemma apply_fuel self fuel prog :
  program_size prog ≤ fuel → apply self fuel prog ≠ OutOfFuel.
Proof.
  intros Hfuel. unfold apply. apply for_functions_converges.
  apply Forall_forall. intros [fname f] Hin. cbn [snd].
  assert (block_size f ≤ fuel).
  { etrans; [|exact Hfuel]. unfold program_size.
    apply list_sum_elem, list_elem_of_fmap. by exists (fname, f). }
  apply (while_block_changed_converges _ fuel); [|done..].
  intros b Hb. by apply _noop_elimination_block_shrinks.
Qed.

(** *** A loop that has returned has reached a fixed point *)

Lemma while_block_changed_stable step :
  (∀ b b', step b = Return (false, b') → step b' = Return (false, b')) →
  ∀ k b b', while_block_changed step k b = Return b' →
    step b' = Return (false, b') ∧ ∀ k', while_block_changed step (S k') b' = Return b'.
Proof.
  intros Hstep k. induction k as [|k IH]; intros b b'; cbn [while_block_changed]; [done|].
  destruct (step b) as [[[|] b1]| |] eqn:Hs; cbn [mbind outcome_bind mret outcome_ret];
    [by apply IH | | done..].
  intros [= <-]. apply Hstep in Hs. split; [done|].
  intros k'. cbn [while_block_changed]. by rewrite Hs.
Qed.

Lemma for_blocks_stable conv :
  (∀ nb nb', conv nb = Return nb' → conv nb' = Return nb') →
  ∀ bs bs', for_blocks conv bs = Return bs' → for_blocks conv bs' = Return bs'.
Proof.
  intros Hconv bs. induction bs as [|b bs IH]; intros bs'; cbn [for_blocks].
  - by intros [= <-].
  - destruct (conv b) as [b'| |] eqn:Hb; cbn [mbind outcome_bind]; [|done..].
    destruct (for_blocks conv bs) as [bs''| |] eqn:Hbs; cbn [mbind outcome_bind]; [|done..].
    intros [= <-]. cbn [for_blocks].
    rewrite (Hconv _ _ Hb). cbn [mbind outcome_bind]. by rewrite (IH _ eq_refl).
Qed.

Lemma set_blocks_blocks op : set_blocks op (blocks op) = op.
Proof. by destruct op. Qed.

Lemma scan_operations_stable self conv :
  (∀ nb nb', conv nb = Return nb' → conv nb' = Return nb') →
  ∀ rest done outs b',
    scan_operations self conv rest (length done) (mkBlock (done ++ rest) outs)
      = Return (false, b') →
    ∃ rest',
      b' = mkBlock (done ++ rest') outs ∧
      scan_operations self conv rest' (length done) (mkBlock (done ++ rest') outs)
        = Return (false, mkBlock (done ++ rest') outs).
Proof.
  intros Hconv rest. induction rest as [|op rest IH]; intros done outs b' Hscan.
  - cbn in Hscan. injection Hscan as <-. by exists [].
  - destruct (for_blocks conv (blocks op)) as [bs| |] eqn:Hfor.
    2: { by rewrite (scan_operations_raise _ _ _ _ _ _ _ Hfor) in Hscan. }
    2: { by rewrite (scan_operations_fuel _ _ _ _ _ _ Hfor) in Hscan. }
    set (op' := set_blocks op bs).
    assert (Hbs : blocks op' = bs) by done.
    destruct (scan_operations_step self outs op') as (k & _ & _ & _ & _ & Hstep).
    rewrite (Hstep conv op rest done) in Hscan by done.
    destruct k as [|e|iv o0]; [|done..].
    apply IH in Hscan as (rest' & -> & Hstable).
    exists (op' :: rest'). destruct (snoc_middle done rest' op') as [Heq Hlen].
    split; [by rewrite Heq|].
    rewrite (Hstep conv op' rest' done).
    + by rewrite Heq in Hstable |- *.
    + rewrite Hbs. by apply (for_blocks_stable conv Hconv (blocks op)).
    + apply set_blocks_blocks.
Qed.

Lemma _noop_elimination_block_stable self n :
  ∀ b b', _noop_elimination_block self n b = Return (false, b') →
    _noop_elimination_block self n b' = Return (false, b').
Proof.
  induction n as [|n IH]; intros b b'; cbn [_noop_elimination_block]; [done|].
  destruct b as [ops outs]. cbn [operations]. intros Hscan.
  apply (scan_operations_stable self _) with (done := []) in Hscan
    as (rest' & -> & Hstable); [done|].
  intros nb nb' Hnb.
  destruct n as [|n]; [done|].
  by apply (while_block_changed_stable _ (IH)) in Hnb as [_ ->].
Qed.

Lemma for_functions_stable body :
  (∀ f f', body f = Return f' → body f' = Return f') →
  ∀ prog prog', for_functions body prog = Return prog' →
    for_functions body prog' = Return prog'.
Proof.
  intros Hbody prog. induction prog as [|[fname f] prog IH]; intros prog';
    cbn [for_functions].
  - by intros [= <-].
  - destruct (body f) as [f'| |] eqn:Hf; cbn [mbind outcome_bind]; [|done..].
    destruct (for_functions body prog) as [prog''| |] eqn:Hp;
      cbn [mbind outcome_bind]; [|done..].
    intros [= <-]. cbn [for_functions].
    rewrite (Hbody _ _ Hf). cbn [mbind outcome_bind]. by rewrite (IH _ eq_refl).
Qed.

Lemma for_functions_Forall body (P : Block → Prop) :
  (∀ f f', body f = Return f' → P f') →
  ∀ prog prog', for_functions body prog = Return prog' → Forall (λ f, P f.2) prog'.
Proof.
  intros Hbody prog. induction prog as [|[fname f] prog IH]; intros prog';
    cbn [for_functions].
  - intros [= <-]. constructor.
  - destruct (body f) as [f'| |] eqn:Hf; cbn [mbind outcome_bind]; [|done..].
    destruct (for_functions body prog) as [prog''| |] eqn:Hp;
      cbn [mbind outcome_bind]; [|done..].
    intros [= <-]. constructor; [by eapply Hbody | by apply IH].
Qed.

(** *** Protected operations survive *)









Lemma replace_in_op_interface old new op : same_interface op (replace_in_op old new op).
Proof. by destruct op. Qed.

Lemma replace_uses_interface block anchor old new :
  Forall2 same_interface (operations block)
    (operations (replace_uses_of_var_after_op block anchor old new)).
Proof.
  unfold replace_uses_of_var_after_op. cbn [operations].
  generalize (match anchor with
              | Some a => default 0 (find_op_id_in_block block a)
              | None => 0
              end) as start.
  intros start. rewrite <- (take_drop start (operations block)) at 1.
  apply Forall2_app; [apply Forall_Forall2_diag, Forall_forall; intros; done|].
  apply Forall2_fmap_r, Forall_Forall2_diag, Forall_forall.
  intros; apply replace_in_op_interface.
Qed.

Lemma subst_var_notin old new outs :
  old ∉ outs → map (subst_var old new) outs = outs.
Proof.
  induction outs as [|v outs IH]; [done|]. intros Hnin. simpl.
  apply not_elem_of_cons in Hnin as [Hne Hnin]. rewrite IH by done.
  unfold subst_var. by rewrite decide_False by done.
Qed.







(** *** [np.sort] and the comparison with the sorted array *)









(** *** What a rewiring leaves *)

Lemma remove_op_subseteq n ops o : o ∈ remove_op n ops → o ∈ ops.
Proof.
  induction ops as [|x ops IH]; simpl; [done|]. case_decide.
  - intros. by right.
  - intros [->|Hin]%elem_of_cons; [by left | right; auto].
Qed.

Lemma replace_in_op_uses old new op : new ≠ old → ¬ uses old (replace_in_op old new op).
Proof.
  intros Hne. destruct op as [n t ins outs bs]. unfold uses. cbn [replace_in_op inputs].
  rewrite map_map. intros ([k v] & Hv & _)%list_elem_of_fmap. simpl in Hv.
  unfold subst_var in Hv. case_decide; congruence.
Qed.

(** After a rewiring the operation is gone from the list, the declared
    outputs have been redirected, and the only operations that still use
    the old value are operations before the anchor, left as they were. *)
Lemma rewire_spec op block input_var out0 :
  (name op ∈ map name (operations block) →
     length (operations (rewire op block input_var out0)) + 1
       = length (operations block)) ∧
  block_outputs (rewire op block input_var out0)
    = map (subst_var out0 input_var) (block_outputs block) ∧
  (input_var ≠ out0 →
     ∀ o, o ∈ operations (rewire op block input_var out0) → uses out0 o →
       o ∈ take (anchor_index block input_var) (operations block)).
Proof.
  split_and!.
  - intros Hin. by apply rewire_size.
  - done.
  - intros Hne o Hin Huses. unfold rewire, remove_ops in Hin.
    cbn [operations foldl] in Hin. apply remove_op_subseteq in Hin.
    unfold replace_uses_of_var_after_op in Hin. cbn [operations] in Hin.
    fold (anchor_index block input_var) in Hin.
    apply elem_of_app in Hin as [Hin|Hin]; [done|].
    apply list_elem_of_fmap in Hin as (o' & -> & _).
    by apply replace_in_op_uses in Huses.
Qed.

(** *** The elementwise strategy *)

Lemma _remove_elementwise_binary_run op block x y out0 (ex ey : option Z) :
  getattr op "x" = Return x → getattr op "y" = Return y →
  outputs_0 op = Return out0 →
  _remove_elementwise_binary op block ex ey =
    match
      (if match ex with Some e => is_constant x e | None => false end then Some y
       else if match ey with Some e => is_constant y e | None => false end then Some x
       else None)
    with
    | Some input_var =>
        if decide (sym_type input_var = sym_type out0)
        then Return (true, rewire op block input_var out0)
        else Return (false, block)
    | None => Return (false, block)
    end.
Proof.
  intros Hx Hy Hout. unfold _remove_elementwise_binary, is_constant, rewire.
  rewrite Hx, Hy, Hout.
  destruct ex as [e1|], ey as [e2|]; cbn [mbind outcome_bind mret outcome_ret];
    repeat first
      [ progress cbn [mbind outcome_bind mret outcome_ret]
      | match goal with
        | |- context [val ?v] => destruct (val v) as [?a|]
        | |- context [np_all_eq ?a ?e] => destruct (np_all_eq a e)
        | |- context [decide (?a = ?b)] =>
            destruct (decide (a = b));
              [ rewrite bool_decide_eq_false_2 by (intros ?; done)
              | rewrite bool_decide_eq_true_2 by done ]
        end ];
    reflexivity.
Qed.

Lemma remove_elementwise_run op block x y out0 :
  op_type op ∈ elementwise_ops →
  getattr op "x" = Return x → getattr op "y" = Return y →
  outputs_0 op = Return out0 →
  remove_elementwise op block =
    match surviving_operand (op_type op) x y with
    | Some input_var =>
        if decide (sym_type input_var = sym_type out0)
        then Return (true, rewire op block input_var out0)
        else Return (false, block)
    | None => Return (false, block)
    end.
Proof.
  intros Ht Hx Hy Hout.
  unfold remove_elementwise, surviving_operand, left_allowed, identity_element.
  unfold elementwise_ops in Ht.
  repeat (apply elem_of_cons in Ht as [->|Ht]);
    [ .. | by apply elem_of_nil in Ht ];
    repeat match goal with
      | |- context [bool_decide (?s ∈ ?l)] =>
          let b := eval vm_compute in (bool_decide (s ∈ l)) in
          change (bool_decide (s ∈ l)) with b
      end;
    cbv iota;
    rewrite (_remove_elementwise_binary_run op block x y out0) by done;
    reflexivity.
Qed.




(** *** Well-formed programs raise nothing *)

Ltac solve_elem :=
  repeat first [ by apply list_elem_of_here | apply list_elem_of_further ].

Lemma dict_get_cases key f :
  dict_get key op_to_removal_fn = Some f →
  (f = remove_elementwise ∧ key ∈ elementwise_ops) ∨
  f = remove_same_shape ∨
  (f = remove_transpose ∧ key = "transpose") ∨
  (f = remove_linear ∧ key = "linear_activation").
Proof.
  unfold op_to_removal_fn. cbn [dict_get].
  repeat (case_decide as Hk;
    [ intros [= <-]; subst key;
      first [ left; split; [reflexivity | solve_elem]
            | right; left; reflexivity
            | right; right; left; split; reflexivity
            | right; right; right; split; reflexivity ] | clear Hk ]).
  discriminate.
Qed.

Lemma dict_get_supported key :
  key ∈ _SUPPORTED_OPS → is_Some (dict_get key op_to_removal_fn).
Proof.
  unfold _SUPPORTED_OPS. intros Hin.
  repeat (apply elem_of_cons in Hin as [->|Hin]; [by eexists|]).
  by apply elem_of_nil in Hin.
Qed.

Lemma scalar_constant_ne_cond v x : scalar_constant v → ∃ b, ne_cond (val v) x = Return b.
Proof. intros [z [-> | ->]]; simpl; eauto. Qed.

Lemma well_formed_op_safe outs op e :
  well_formed_op op → ¬ raises_at outs op e.
Proof.
  intros [Hout Hwf] [Hm | (f & Hm & Hf)].
  - unfold _match_pattern, outputs_0 in Hm.
    destruct (outputs op) as [|out0 rest]; [done|].
    cbn [mbind outcome_bind mret outcome_ret] in Hm.
    repeat case_bool_decide; try done.
    destruct (dict_get_supported (op_type op)) as [f Hf]; [done|].
    by rewrite Hf in Hm.
  - destruct (_match_pattern_Some _ _ _ Hm) as (_ & out0 & Hout0 & _ & Hsup & Hd).
    destruct (Hwf Hsup) as (_ & [x Hx] & Hy & Hperm & Hlin).
    specialize (Hf (mkBlock [] outs)).
    pose proof (outputs_0_cons _ _ _ Hout0) as Ho.
    destruct (dict_get_cases _ _ Hd) as [[-> Ht] | [-> | [[-> Ht] | [-> Ht]]]].
    + destruct (Hy Ht) as [y Hy'].
      rewrite (remove_elementwise_run op _ x y out0) in Hf by done.
      by repeat case_match.
    + unfold remove_same_shape in Hf. rewrite Hx, Ho in Hf.
      cbn [mbind outcome_bind mret outcome_ret] in Hf. by case_bool_decide.
    + destruct (Hperm Ht) as (p & l & Hp & Hv).
      unfold remove_transpose in Hf. rewrite Hp in Hf.
      cbn [mbind outcome_bind] in Hf. rewrite Hv, Hx, Ho in Hf.
      by case_match.
    + destruct (Hlin Ht) as (a & b & Ha & Hb & Hsa & Hsb).
      unfold remove_linear in Hf. rewrite Ha, Hb, Hx, Ho in Hf.
      cbn [mbind outcome_bind] in Hf.
      destruct (scalar_constant_ne_cond a 1 Hsa) as [[|] Hna]; rewrite Hna in Hf;
        cbn [mbind outcome_bind mret outcome_ret] in Hf; [done|].
      destruct (scalar_constant_ne_cond b 0 Hsb) as [[|] Hnb]; rewrite Hnb in Hf;
        cbn [mbind outcome_bind mret outcome_ret] in Hf; done.
Qed.

Lemma lookup_input_replace old new attr ins :
  lookup_input attr (map (λ kv, (kv.1, subst_var old new kv.2)) ins)
    = subst_var old new <$> lookup_input attr ins.
Proof.
  induction ins as [|[k v] ins IH]; [done|]. simpl. by case_decide.
Qed.

Lemma getattr_replace old new op attr v :
  getattr op attr = Return v →
  getattr (replace_in_op old new op) attr = Return (subst_var old new v).
Proof.
  destruct op as [n t ins outs bs]. unfold getattr. cbn [replace_in_op inputs].
  rewrite lookup_input_replace.
  destruct (lookup_input attr ins); [|done]. by intros [= ->].
Qed.

Lemma remove_op_name n ops o :
  NoDup (map name ops) → o ∈ remove_op n ops → name o ≠ n.
Proof.
  induction ops as [|x ops IH]; simpl; [by intros _ ?%elem_of_nil|].
  intros [Hx HN]%NoDup_cons. case_decide as Hd.
  - intros Hin Heq. apply Hx. rewrite Hd, <- Heq. apply list_elem_of_fmap. eauto.
  - intros [->|Hin]%elem_of_cons; [done | by apply IH].
Qed.

Lemma remove_op_other n ops o : o ∈ ops → name o ≠ n → o ∈ remove_op n ops.
Proof.
  induction ops as [|x ops IH]; simpl; [done|].
  intros [->|Hin]%elem_of_cons Hne.
  - rewrite decide_False by done. by left.
  - case_decide; [done|]. right. by apply IH.
Qed.

(** The effect of a rewiring on a block whose operations have distinct
    names and that holds [op]. *)
Lemma rewire_removed_and_redirected op block input_var out0 :
  NoDup (map name (operations block)) → op ∈ operations block →
  removed_and_redirected op block input_var out0 (rewire op block input_var out0).
Proof.
  intros HN Hop.
  assert (name op ∈ map name (operations block)) as Hname
    by (apply list_elem_of_fmap; eauto).
  destruct (rewire_spec op block input_var out0) as (Hlen & Houts & Huses).
  pose proof (replace_uses_names block (var_op block input_var) out0 input_var) as Hnames.
  unfold removed_and_redirected. split_and!; [by apply Hlen | | | | done | done].
  - intros o Hin. unfold rewire, remove_ops in Hin. cbn [operations foldl] in Hin.
    eapply remove_op_name; [|exact Hin]. by rewrite Hnames.
  - intros o Hin Hne. unfold rewire, remove_ops. cbn [operations foldl].
    pose proof (replace_uses_interface block (var_op block input_var) out0 input_var)
      as HF.
    apply list_elem_of_lookup in Hin as [i Hi].
    destruct (Forall2_lookup_l _ _ _ _ _ HF Hi) as (o' & Hi' & Ho').
    exists o'. split; [|done]. apply remove_op_other.
    + by eapply list_elem_of_lookup_2.
    + destruct Ho' as (-> & _). done.
  - intros o attr v Hin Hne Hv. exists (replace_in_op out0 input_var o).
    split_and!; [|apply replace_in_op_name|by apply getattr_replace].
    unfold rewire, remove_ops. cbn [operations foldl].
    apply remove_op_other; [|by rewrite replace_in_op_name].
    unfold replace_uses_of_var_after_op. cbn [operations].
    fold (anchor_index block input_var).
    apply elem_of_app. right. apply list_elem_of_fmap. eauto.
Qed.

(** *** The transpose strategy *)



Lemma subst_var_constant old new v :
  val old = None → is_Some (val v) → subst_var old new v = v.
Proof.
  intros Hold [a Ha]. unfold subst_var. case_decide as Heq; [|done].
  subst v. congruence.
Qed.

Lemma replace_in_op_well_formed_op old new op :
  val old = None → well_formed_op op → well_formed_op (replace_in_op old new op).
Proof.
  intros Hold [Hout Hwf].
  destruct (replace_in_op_interface old new op) as (_ & Ht & Ho).
  split; [by rewrite Ho|]. rewrite Ht, Ho. intros Hsup.
  destruct (Hwf Hsup) as (Hval & [x Hx] & Hy & Hperm & Hlin).
  split_and!.
  - done.
  - eexists. by apply getattr_replace.
  - intros Hel. destruct (Hy Hel) as [y Hy']. eexists. by apply getattr_replace.
  - intros Htr. destruct (Hperm Htr) as (p & l & Hp & Hv).
    exists p, l. split; [|done].
    rewrite (getattr_replace old new op "perm" p Hp).
    by rewrite subst_var_constant by (by rewrite ?Hv).
  - intros Hl. destruct (Hlin Hl) as (a & b & Ha & Hb & Hsa & Hsb).
    exists a, b. split_and!; [| |done..].
    + rewrite (getattr_replace old new op "alpha" a Ha).
      rewrite subst_var_constant; [done..|]. by destruct Hsa as [z [-> | ->]].
    + rewrite (getattr_replace old new op "beta" b Hb).
      rewrite subst_var_constant; [done..|]. by destruct Hsb as [z [-> | ->]].
Qed.

Lemma replace_in_op_well_formed old new op :
  val old = None → well_formed_operation op →
  well_formed_operation (replace_in_op old new op).
Proof.
  intros Hold.
  induction op as [n t ins outs bs IH | ops bouts IH]
    using Operation_tree_ind
    with (Q := λ b, well_formed_block b →
                    Forall well_formed_operation
                      (map (replace_in_op old new) (operations b))).
  - intros Hwf. inversion Hwf as [? Hop Hbs]; subst.
    constructor; [by apply (replace_in_op_well_formed_op old new _ Hold)|].
    cbn [replace_in_op blocks] in *. apply Forall_fmap.
    apply Forall_forall. intros [ops bouts] Hin.
    rewrite Forall_forall in IH, Hbs. constructor. by apply (IH _ Hin), Hbs.
  - intros Hwf. inversion Hwf as [? Hops]; subst. cbn [operations] in *.
    apply Forall_fmap, Forall_forall. intros o Hin.
    rewrite Forall_forall in IH, Hops. by apply (IH _ Hin), Hops.
Qed.

Lemma remove_op_Forall (P : Operation → Prop) n ops :
  Forall P ops → Forall P (remove_op n ops).
Proof.
  induction 1 as [|o ops Ho Hops IH]; simpl; [done|].
  case_decide; [done | by constructor].
Qed.

Lemma rewire_well_formed op block input_var out0 :
  val out0 = None → well_formed_block block →
  well_formed_block (rewire op block input_var out0).
Proof.
  intros Hval Hwf. inversion Hwf as [? Hops]; subst. constructor.
  unfold rewire, remove_ops. cbn [operations foldl]. apply remove_op_Forall.
  unfold replace_uses_of_var_after_op. cbn [operations].
  rewrite <- (take_drop (anchor_index block input_var) (operations block)) in Hops.
  apply Forall_app in Hops as [Htake Hdrop].
  apply Forall_app. split; [done|].
  apply Forall_fmap. eapply Forall_impl; [done|].
  intros o Ho. by apply replace_in_op_well_formed.
Qed.

Lemma for_blocks_safe conv bs :
  (∀ nb, well_formed_block nb → safe_loop (conv nb)) →
  Forall well_formed_block bs →
  match for_blocks conv bs with
  | Return bs' => Forall well_formed_block bs'
  | Raise _ => False
  | OutOfFuel => True
  end.
Proof.
  intros Hconv. induction 1 as [|nb bs Hnb _ IH]; cbn [for_blocks];
    [by apply Forall_nil_2|].
  specialize (Hconv nb Hnb).
  destruct (conv nb) as [nb'| |]; cbn [mbind outcome_bind]; [|done..].
  destruct (for_blocks conv bs) as [bs'| |];
    cbn [mbind outcome_bind mret outcome_ret]; [|done..].
  by constructor.
Qed.

Lemma scan_operations_safe self conv :
  (∀ nb, well_formed_block nb → safe_loop (conv nb)) →
  ∀ rest done outs,
    Forall well_formed_operation (done ++ rest) →
    safe_step
      (scan_operations self conv rest (length done) (mkBlock (done ++ rest) outs)).
Proof.
  intros Hconv rest. induction rest as [|op rest IH]; intros done outs Hwf.
  - cbn. by constructor.
  - pose proof Hwf as Hwf'.
    apply Forall_app in Hwf' as [Hdone Hrest].
    apply Forall_cons in Hrest as [Hop Hrest].
    inversion Hop as [? Hwfop Hbs]; subst.
    pose proof (for_blocks_safe conv (blocks op) Hconv Hbs) as Hfor.
    destruct (for_blocks conv (blocks op)) as [bs| |] eqn:Hfor'; [|done|].
    2: { by rewrite (scan_operations_fuel _ _ _ _ _ _ Hfor'). }
    set (op' := set_blocks op bs).
    assert (Hop' : well_formed_operation op').
    { constructor; [|done]. destruct op. exact Hwfop. }
    assert (Hwf1 : Forall well_formed_operation (done ++ op' :: rest)).
    { apply Forall_app. split; [done | by constructor]. }
    destruct (scan_operations_step self outs op')
      as (k & Hk & _ & Hraise & Hsup & Hstep).
    rewrite (Hstep conv op rest done) by done.
    destruct k as [|e|iv o0].
    + destruct (snoc_middle done rest op') as [Heq _].
      apply IH. by rewrite Heq.
    + inversion Hop' as [? Hwfop' _]; subst.
      by apply (well_formed_op_safe outs op' e Hwfop'), Hraise.
    + cbn. apply rewire_well_formed; [|by constructor].
      destruct (Hk iv o0 eq_refl) as (_ & Hout & _).
      inversion Hop' as [? [_ Hwfop'] _]; subst.
      destruct (Hwfop' (Hsup iv o0 eq_refl)) as (Hval & _).
      rewrite Hout in Hval. by apply Forall_cons in Hval as [? _].
Qed.

Lemma while_block_changed_safe step :
  (∀ b, well_formed_block b → safe_step (step b)) →
  ∀ k b, well_formed_block b → safe_loop (while_block_changed step k b).
Proof.
  intros Hstep k. induction k as [|k IH]; intros b Hb; cbn [while_block_changed];
    [done|].
  specialize (Hstep b Hb).
  destruct (step b) as [[[|] b']| |]; cbn [mbind outcome_bind mret outcome_ret];
    [by apply IH | done..].
Qed.

Lemma _noop_elimination_block_safe self n :
  ∀ b, well_formed_block b → safe_step (_noop_elimination_block self n b).
Proof.
  induction n as [|n IH]; intros b Hb; cbn [_noop_elimination_block]; [done|].
  destruct b as [ops outs]. inversion Hb as [? Hops]; subst. cbn [operations] in *.
  apply (scan_operations_safe self _) with (done := []); [|done].
  intros nb Hnb. by apply while_block_changed_safe.
Qed.

Lemma apply_safe self fuel prog :
  well_formed_program prog →
  match apply self fuel prog with
  | Return prog' => well_formed_program prog'
  | Raise _ => False
  | OutOfFuel => True
  end.
Proof.
  unfold apply, well_formed_program. cbn zeta. unfold set_ops_to_skip.
  induction 1 as [|[fname f] prog Hf _ IH]; cbn [for_functions];
    [by apply Forall_nil_2|].
  pose proof (while_block_changed_safe _
                (_noop_elimination_block_safe self fuel) fuel f Hf) as Hw.
  destruct (while_block_changed _ fuel f) as [f'| |];
    cbn [mbind outcome_bind]; [|done..].
  destruct (for_functions _ prog) as [prog'| |];
    cbn [mbind outcome_bind mret outcome_ret]; [|done..].
  by constructor.
Qed.

(** *** The pass *)


(** *** Protected operations in nested blocks *)

Lemma produced_unfold op :
  produced op = outputs op ++ concat (map produced_in (blocks op)).
Proof.
  destruct op as [n t ins outs bs]. cbn [produced outputs blocks].
  f_equal. f_equal. apply map_ext. by intros [ops bouts].
Qed.

Lemma blocks_replace old new op :
  blocks (replace_in_op old new op) = map (replace_in_block old new) (blocks op).
Proof.
  destruct op as [n t ins outs bs]. cbn [replace_in_op blocks].
  apply map_ext. by intros [ops bouts].
Qed.

Lemma outputs_replace old new op : outputs (replace_in_op old new op) = outputs op.
Proof. by destruct op. Qed.

Lemma produced_replace old new op : produced (replace_in_op old new op) = produced op.
Proof.
  apply (Operation_tree_ind
           (λ op, produced (replace_in_op old new op) = produced op)
           (λ b, produced_in (replace_in_block old new b) = produced_in b)).
  - intros n t ins outs bs IH.
    rewrite !produced_unfold, blocks_replace, outputs_replace. cbn [blocks outputs].
    f_equal. rewrite map_map. f_equal.
    induction IH as [|b bs Hb _ IHbs]; [done|]. cbn [map]. by rewrite Hb, IHbs.
  - intros ops outs IH. unfold produced_in, replace_in_block. cbn [operations].
    rewrite map_map. f_equal.
    induction IH as [|o ops Ho _ IHops]; [done|]. cbn [map]. by rewrite Ho, IHops.
Qed.

Lemma produced_in_replace old new b :
  produced_in (replace_in_block old new b) = produced_in b.
Proof.
  unfold produced_in, replace_in_block. cbn [operations]. rewrite map_map. f_equal.
  apply map_ext. intros o. apply produced_replace.
Qed.






























Lemma for_functions_Forall2 body (P : Block → Prop) (R : Block → Block → Prop) :
  (∀ f f', P f → body f = Return f' → R f f') →
  ∀ prog prog',
    Forall (λ f, P f.2) prog →
    for_functions body prog = Return prog' →
    Forall2 (λ f f', f'.1 = f.1 ∧ R f.2 f'.2) prog prog'.
Proof.
  intros Hbody prog. induction prog as [|[fname f] prog IH]; intros prog' HN;
    cbn [for_functions].
  - intros [= <-]. constructor.
  - apply Forall_cons in HN as [Hf HN].
    destruct (body f) as [f'| |] eqn:Hb; cbn [mbind outcome_bind]; [|done..].
    destruct (for_functions body prog) as [prog''| |] eqn:Hp;
      cbn [mbind outcome_bind]; [|done..].
    intros [= <-]. constructor; [|by apply IH].
    split; [done|]. by apply Hbody.
Qed.




(** C3: the fixed-point loops terminate.  A strategy the matcher hands
    out that reports success has removed exactly one operation of the
    block; a run of the loop body on a block does not grow the block and,
    when it reports a change, has shrunk it; a scan that reports no
    change ends the loop; and [apply], given fuel for the size of the
    program or more, never runs out of it: it returns or raises, with an
    outcome that does not depend on the fuel.  On a well-formed program
    nothing raises: [apply] returns, and the program it returns is
    well-formed. *)
Theorem apply_terminates (self : noop_elimination) (prog : Program) :
  (∀ op block remove_fn block',
     _match_pattern op block = Return (Some remove_fn) →
     name op ∈ map name (operations block) →
     remove_fn op block = Return (true, block') →
     length (operations block') + 1 = length (operations block) ∧
     block_size block' < block_size block) ∧
  (∀ fuel block,
     block_size block ≤ fuel →
     shrinks block (_noop_elimination_block self fuel block)) ∧
  (∀ step fuel b b',
     step b = Return (false, b') → while_block_changed step (S fuel) b = Return b') ∧
  (∃ r, r ≠ OutOfFuel ∧
     ∀ fuel, program_size prog ≤ fuel → apply self fuel prog = r) ∧
  (well_formed_program prog →
     ∃ prog', well_formed_program prog' ∧
       ∀ fuel, program_size prog ≤ fuel → apply self fuel prog = Return prog').
Proof.
  split_and!.
  - intros op block f block' Hm Hin Hrun.
    apply _match_pattern_Some in Hm as [Hu _].
    destruct (Hu op) as [[e He] | [Hd | (iv & o0 & _ & Hr)]].
    + by rewrite He in Hrun.
    + by rewrite Hd in Hrun.
    + rewrite Hr in Hrun. injection Hrun as <-. by apply rewire_size.
  - intros fuel block Hfuel. by apply _noop_elimination_block_shrinks.
  - intros step fuel b b' Hs. cbn [while_block_changed]. by rewrite Hs.
  - exists (apply self (program_size prog) prog). split; [by apply apply_fuel|].
    intros fuel Hfuel. apply apply_mono; [done | by apply apply_fuel].
  - intros Hwf.
    pose proof (apply_safe self (program_size prog) prog Hwf) as Hsafe.
    pose proof (apply_fuel self (program_size prog) prog (le_n _)) as Hfuel.
    destruct (apply self (program_size prog) prog) as [prog'| |] eqn:Hrun; [|done..].
    exists prog'. split; [done|]. intros fuel Hle.
    rewrite <- Hrun. apply apply_mono; [done | by rewrite Hrun].
Qed.

Ltac well_formed_op_tac :=
  split; [done|]; intros Hsup;
  first
    [ exfalso; revert Hsup;
      match goal with
      | |- ?P → False => apply (bool_decide_eq_false_1 P); vm_compute; reflexivity
      end
    | split_and!;
        [ repeat constructor | eexists; reflexivity | intros _; eexists; reflexivity
        | intros [=] | intros [=] ] ].

Lemma apply_terminates_witness :
  length (operations main_block') + 1 = length (operations main_block) ∧
  shrinks main_block (_noop_elimination_block __init__ 7 main_block) ∧
  while_block_changed (_noop_elimination_block __init__ 7) 1 main_block'
    = Return main_block' ∧
  apply __init__ 20 nested_prog ≠ OutOfFuel ∧
  (∃ prog', well_formed_program prog' ∧
     ∀ fuel, program_size main_prog ≤ fuel → apply __init__ fuel main_prog = Return prog') ∧
  apply __init__ 20 nested_prog = Return nested_prog'.
Proof.
  destruct (apply_terminates __init__ nested_prog) as (H1 & H2 & H3 & (r & Hr & H4) & _).
  destruct (apply_terminates __init__ main_prog) as (_ & _ & _ & _ & H5).
  split_and!.
  - apply (H1 add_2 main_block remove_elementwise main_block');
      [vm_compute; reflexivity | by right; left | vm_compute; reflexivity].
  - apply H2. vm_compute. lia.
  - apply H3. vm_compute. reflexivity.
  - rewrite (H4 20); [exact Hr | vm_compute; lia].
  - apply H5. apply Forall_cons_2; [|apply Forall_nil_2].
    constructor. cbn [snd operations main_block].
    repeat (apply Forall_cons_2;
      [constructor; [well_formed_op_tac | apply Forall_nil_2]|]).
    apply Forall_nil_2.
  - vm_compute. reflexivity.
Defined.

(** C4: the pass is idempotent.  Once [apply] has returned, a second
    [apply] on the resulting program (with the same fuel or more) returns
    that program unchanged, and already the first scan of every function
    reports no change, so that no rewrite is performed. *)
Theorem apply_idempotent (self : noop_elimination) (fuel : nat) (prog prog' : Program) :
  apply self fuel prog = Return prog' →
  (∀ fuel', fuel ≤ fuel' → apply self fuel' prog' = Return prog') ∧
  Forall (λ f, ∀ fuel', fuel ≤ fuel' →
            _noop_elimination_block self fuel' f.2 = Return (false, f.2)) prog'.
Proof.
  intros Hrun. unfold apply in Hrun. cbn zeta in Hrun. unfold set_ops_to_skip in Hrun.
  assert (Hstable : ∀ f f',
    while_block_changed (_noop_elimination_block self fuel) fuel f = Return f' →
    _noop_elimination_block self fuel f' = Return (false, f') ∧
    while_block_changed (_noop_elimination_block self fuel) fuel f' = Return f').
  { intros f f' Hw. destruct fuel as [|k]; [done|].
    apply (while_block_changed_stable _ (_noop_elimination_block_stable self (S k)))
      in Hw as [H1 H2]. done. }
  split.
  - intros fuel' Hfuel.
    assert (Hsame : apply self fuel prog' = Return prog').
    { unfold apply. cbn zeta. unfold set_ops_to_skip.
      eapply for_functions_stable; [|done]. intros f f' Hw.
      by destruct (Hstable f f' Hw). }
    pose proof (apply_mono self fuel fuel' prog' Hfuel) as Hmono.
    unfold refines in Hmono. rewrite Hsame in Hmono. by apply Hmono.
  - eapply Forall_impl.
    + apply (for_functions_Forall _
               (λ f', _noop_elimination_block self fuel f' = Return (false, f'))
               (λ f f' Hw, proj1 (Hstable f f' Hw)) prog prog' Hrun).
    + intros [n f] Hf fuel' Hfuel. cbn [snd] in *.
      pose proof (_noop_elimination_block_mono self fuel fuel' f Hfuel) as Hmono.
      unfold refines in Hmono. rewrite Hf in Hmono. by apply Hmono.
Qed.

Lemma apply_idempotent_witness :
  apply __init__ 6 nested_prog = Return nested_prog' ∧
  apply __init__ 6 nested_prog' = Return nested_prog' ∧
  apply __init__ 9 nested_prog' = Return nested_prog'.
Proof.
  assert (Hrun : apply __init__ 6 nested_prog = Return nested_prog')
    by (vm_compute; reflexivity).
  destruct (apply_idempotent __init__ 6 nested_prog nested_prog' Hrun) as [H _].
  split_and!; [exact Hrun | apply H; lia | apply H; lia].
Defined.

End NoopEliminationProofs.

(** ** Further properties of the registry *)

Module TorchOpRegistryExtraProofs.
Import PyStr PyStrFacts TorchOpRegistry TorchOpRegistrySpec TorchOpRegistryProofs.
Import TorchOpRegistryExtra ExtraSpec.

Lemma for_in_fresh func names : ∀ self,
  for_in names (register_one func false) self = (inr tt, bind_all func names self) ↔
    Forall (λ n, endswith n "_" = false) names ∧ NoDup names ∧
    Forall (λ n, name_to_func_mapping self !! n = None) names.
Proof.
  induction names as [|n names IH]; intros self.
  - split; [|by destruct self].
    intros _. split_and!; [apply Forall_nil_2 | apply NoDup_nil_2 | apply Forall_nil_2].
  - rewrite for_in_cons, bind_all_cons.
    destruct (register_one_cases func false n self)
      as [[E R] | [(E & _ & Hb & R) | (E & Hor & R)]]; rewrite R.
    + split; [done|]. intros (F & _). apply Forall_cons in F as [F _]. congruence.
    + split; [done|]. intros (_ & _ & F). apply Forall_cons in F as [F _].
      rewrite F in Hb. by destruct Hb.
    + destruct Hor as [?|Hnone]; [done|]. rewrite IH. cbn [name_to_func_mapping].
      rewrite NoDup_cons, !Forall_cons. split.
      * intros (F & HN & Hf). rewrite Forall_forall in Hf.
        assert (n ∉ names) as Hnin.
        { intros Hin. specialize (Hf n Hin). by rewrite lookup_insert_eq in Hf. }
        split_and!; [done.. |]. apply Forall_forall. intros m Hm.
        specialize (Hf m Hm). rewrite lookup_insert_ne in Hf; [done|].
        intros ->. done.
      * intros ([_ F] & [Hnin HN] & [_ Hf]). split_and!; [done..|].
        rewrite Forall_forall in Hf. apply Forall_forall. intros m Hm.
        rewrite lookup_insert_ne; [by apply Hf|]. intros ->. done.
Qed.

(** Where a run of the loop leaves the registry, whether it returns or
    raises: the names of a prefix [pre] of the list are bound. *)
Lemma for_in_register_state func override names self :
  ∃ pre post,
    names = (pre ++ post)%list ∧
    Forall (λ n, endswith n "_" = false) pre ∧
    for_in pre (register_one func override) self = (inr tt, bind_all func pre self) ∧
    (for_in names (register_one func override) self).2 = bind_all func pre self ∧
    ((for_in names (register_one func override) self).1 = inr tt → post = []).
Proof.
  destruct (for_in_register_run func override names self)
    as [[F R] | (pre & bad & post & e & -> & F & Rpre & _ & _ & R)].
  - exists names, []. rewrite R, app_nil_r. done.
  - exists pre, (bad :: post). rewrite R. done.
Qed.

Lemma get_func_inplace self n :
  endswith n "_" = false → get_func self (n ++ "_") = name_to_func_mapping self !! n.
Proof.
  intros Hn. unfold get_func.
  rewrite (not_endswith_app_underscore n Hn), andb_false_r.
  rewrite endswith_app, slice_inplace. reflexivity.
Qed.

Lemma get_func_wrapped self n :
  get_func self ("__" ++ n ++ "__") = name_to_func_mapping self !! n.
Proof. rewrite get_func_dunder by apply dunder_wrap. by rewrite slice_dunder. Qed.

(** X1.  Without [override], [register_func] returns exactly when no
    target name ends in an underscore, the target names are pairwise
    distinct and none of them is bound; the registry then binds each of
    them to the function.  A repeated alias raises even on a fresh
    registry. *)
Theorem register_func_fresh_names func torch_alias self :
  ((∃ self', register_func func torch_alias false self = (inr tt, self')) ↔
     Forall (λ n, endswith n "_" = false) (all_f_names func torch_alias) ∧
     NoDup (all_f_names func torch_alias) ∧
     Forall (λ n, name_to_func_mapping self !! n = None) (all_f_names func torch_alias)) ∧
  (∀ self', register_func func torch_alias false self = (inr tt, self') →
     self' = bind_all func (all_f_names func torch_alias) self) ∧
  (¬ NoDup (all_f_names func torch_alias) →
     ∃ e self', register_func func torch_alias false self = (inl e, self')).
Proof.
  rewrite register_func_unfold.
  assert (Hstate : ∀ self', for_in (all_f_names func torch_alias) (register_one func false) self
                     = (inr tt, self') → self' = bind_all func (all_f_names func torch_alias) self).
  { intros self' R.
    destruct (for_in_register_run func false (all_f_names func torch_alias) self)
      as [[_ R'] | (pre & bad & post & e & _ & _ & _ & _ & _ & R')];
      rewrite R' in R; [by injection R as <- | discriminate]. }
  split_and!; [|exact Hstate|].
  - rewrite <- for_in_fresh. split; [|eauto].
    intros [self' R]. by rewrite <- (Hstate self' R).
  - intros Hdup.
    destruct (for_in (all_f_names func torch_alias) (register_one func false) self)
      as [[e|[]] self'] eqn:R; [eauto|].
    rewrite (Hstate self' eq_refl) in R. apply for_in_fresh in R as (_ & HN & _). done.
Qed.

Lemma register_func_fresh_names_witness :
  (∃ self', register_func add_handler (Some ["plus"]) false __init__ = (inr tt, self')) ∧
  (∃ e self', register_func add_handler (Some ["plus"; "plus"]) false __init__
                = (inl e, self')).
Proof.
  split.
  - apply (register_func_fresh_names add_handler (Some ["plus"]) __init__). split_and!.
    + repeat constructor.
    + apply (bool_decide_unpack (NoDup _)). vm_compute. exact I.
    + repeat constructor.
  - apply (register_func_fresh_names add_handler (Some ["plus"; "plus"]) __init__).
    apply (bool_decide_eq_false_1 (NoDup _)). vm_compute. reflexivity.
Defined.

(** X2.  [register_func] only adds bindings to the function it is given:
    returning or raising, it leaves every bound key bound, every new
    binding is one of the target names bound to the function, and
    without [override] no existing binding changes its handler. *)
Theorem register_func_keeps_bindings func torch_alias override self :
  (∀ k, is_Some (name_to_func_mapping self !! k) →
     is_Some (name_to_func_mapping (register_func func torch_alias override self).2 !! k)) ∧
  (∀ k h, name_to_func_mapping (register_func func torch_alias override self).2 !! k = Some h →
     (h = func ∧ k ∈ all_f_names func torch_alias) ∨
     name_to_func_mapping self !! k = Some h) ∧
  (override = false → ∀ k h, name_to_func_mapping self !! k = Some h →
     name_to_func_mapping (register_func func torch_alias override self).2 !! k = Some h).
Proof.
  rewrite register_func_unfold.
  destruct (for_in_register_state func override (all_f_names func torch_alias) self)
    as (pre & post & Hn & F & Rpre & -> & _).
  split_and!.
  - intros k Hk. rewrite bind_all_lookup. by case_bool_decide.
  - intros k h. rewrite bind_all_lookup. case_bool_decide as Hin; [|by right].
    intros [= <-]. left. split; [done|]. rewrite Hn. apply elem_of_app. by left.
  - intros -> k h Hk. rewrite bind_all_lookup. case_bool_decide as Hin; [|done].
    apply for_in_fresh in Rpre as (_ & _ & Hf). rewrite Forall_forall in Hf.
    rewrite (Hf k Hin) in Hk. discriminate.
Qed.

Lemma register_func_keeps_bindings_witness :
  name_to_func_mapping
    (register_func add_handler' (Some ["plus"]) false registry_add).2 !! "add"
    = Some add_handler.
Proof.
  apply (register_func_keeps_bindings add_handler' (Some ["plus"]) false registry_add).
  - reflexivity.
  - vm_compute. reflexivity.
Defined.

Lemma register_func_no_inplace_keys func torch_alias override self :
  no_inplace_keys self →
  no_inplace_keys (register_func func torch_alias override self).2.
Proof.
  intros Hinv k. rewrite register_func_unfold.
  destruct (for_in_register_state func override (all_f_names func torch_alias) self)
    as (pre & post & Hn & F & Rpre & -> & _).
  rewrite bind_all_lookup. case_bool_decide as Hin; [|apply Hinv].
  intros _. rewrite Forall_forall in F. by apply F.
Qed.

Lemma built_no_inplace_keys self : built self → no_inplace_keys self.
Proof.
  induction 1 as [|self func torch_alias override _ IH].
  - intros k [h Hk]. unfold TorchOpRegistry.__init__ in Hk. cbn in Hk.
    by rewrite lookup_empty in Hk.
  - by apply register_func_no_inplace_keys.
Qed.

(** X3.  In a registry built by calls of [register_func] (returning or
    raising) no key ends in an underscore: the containment query is
    false on every in-place and every dunder-wrapped name, and every
    registered handler is found by [get_func] under its key, under the
    key's in-place form and under its dunder-wrapped form. *)
Theorem built_registry_keys self :
  built self →
  ∀ k,
    (endswith k "_" = true → __contains__ self k = false) ∧
    (is_inplace_op k = true ∨ dunder k → name_to_func_mapping self !! k = None) ∧
    (∀ h, name_to_func_mapping self !! k = Some h →
       get_func self k = Some h ∧ get_func self (k ++ "_") = Some h ∧
       get_func self ("__" ++ k ++ "__") = Some h).
Proof.
  intros Hb%built_no_inplace_keys k.
  assert (Hends : endswith k "_" = true → name_to_func_mapping self !! k = None).
  { intros Hk. destruct (name_to_func_mapping self !! k) as [h|] eqn:E; [|done].
    rewrite (Hb k) in Hk by eauto. discriminate. }
  split_and!.
  - intros Hk. unfold __contains__. rewrite (Hends Hk).
    apply bool_decide_eq_false_2. by intros [? ?].
  - intros [Hk|[_ Hk]]; apply Hends.
    + unfold is_inplace_op in Hk. by apply andb_true_iff in Hk as [_ ?].
    + by apply endswith_2_1.
  - intros h Hh. assert (endswith k "_" = false) as Hk by (apply Hb; eauto).
    by rewrite get_func_plain, get_func_inplace, get_func_wrapped.
Qed.

Lemma built_registry_keys_witness :
  __contains__ registry_add "add_" = false ∧
  get_func registry_add "add_" = Some add_handler.
Proof.
  assert (built registry_add) as Hb by (apply built_register, built_init).
  split.
  - apply (built_registry_keys registry_add Hb "add_"). vm_compute. reflexivity.
  - apply (built_registry_keys registry_add Hb "add"). vm_compute. reflexivity.
Defined.

(** X4.  After [register_func] returns, [get_func] finds the function
    under each target name, under its in-place form [name_] and under
    its dunder-wrapped form [__name__], and the containment query holds
    on each target name. *)
Theorem register_func_then_get_func func torch_alias override self self' :
  register_func func torch_alias override self = (inr tt, self') →
  get_func self' (__name__ func) = Some func ∧
  ∀ name, name ∈ all_f_names func torch_alias →
    get_func self' name = Some func ∧
    get_func self' (name ++ "_") = Some func ∧
    get_func self' ("__" ++ name ++ "__") = Some func ∧
    __contains__ self' name = true.
Proof.
  rewrite register_func_unfold. intros R.
  assert (∀ name, name ∈ all_f_names func torch_alias →
            endswith name "_" = false ∧ name_to_func_mapping self' !! name = Some func)
    as Hall.
  { intros name Hin.
    destruct (for_in_register_run func override (all_f_names func torch_alias) self)
      as [[F R'] | (pre & bad & post & e & _ & _ & _ & _ & _ & R')];
      rewrite R' in R; [|discriminate].
    injection R as <-. rewrite Forall_forall in F. split; [by apply F|].
    rewrite bind_all_lookup. by rewrite bool_decide_eq_true_2. }
  split.
  - destruct (own_name_first func torch_alias) as [aliases Ha].
    destruct (Hall (__name__ func)) as [Hk Hl]; [rewrite Ha; by left|].
    by rewrite get_func_plain.
  - intros name [Hk Hl]%Hall.
    rewrite get_func_plain, get_func_inplace, get_func_wrapped by done.
    split_and!; [done..|]. unfold __contains__. rewrite Hl.
    apply bool_decide_eq_true_2. eauto.
Qed.

Lemma register_func_then_get_func_witness :
  get_func (register_func add_handler (Some ["plus"]) false __init__).2 "plus_"
    = Some add_handler.
Proof.
  destruct (register_func_then_get_func add_handler (Some ["plus"]) false __init__
              (register_func add_handler (Some ["plus"]) false __init__).2) as [_ H].
  - vm_compute. reflexivity.
  - apply (H "plus"). right. left.
Defined.

(** X5.  [is_inplace_op] holds of [n_] for every [n] not ending in an
    underscore and of no dunder-wrapped name; on a name it holds of,
    [get_func] looks up the name without its last character and the
    loop of [register_func] raises. *)
Theorem is_inplace_op_spec self :
  (∀ n, endswith n "_" = false → is_inplace_op (n ++ "_") = true) ∧
  (∀ n, is_inplace_op ("__" ++ n ++ "__") = false) ∧
  (∀ s, is_inplace_op s = false ↔ endswith s "_" = false ∨ dunder s) ∧
  (∀ s, is_inplace_op s = true →
     ∃ n, s = n ++ "_" ∧ get_func self s = name_to_func_mapping self !! n) ∧
  (∀ s func override, is_inplace_op s = true →
     register_one func override s self = (inl (Exception s), self)).
Proof.
  split_and!.
  - intros n Hn. unfold is_inplace_op.
    by rewrite (not_endswith_app_underscore n Hn), andb_false_r, endswith_app.
  - intros n. unfold is_inplace_op. destruct (dunder_wrap n) as [-> ->]. reflexivity.
  - intros s. unfold is_inplace_op, dunder.
    destruct (startswith s "__"), (endswith s "__") eqn:E2, (endswith s "_") eqn:E1;
      cbn; try (apply endswith_2_1 in E2; congruence); intuition congruence.
  - intros s Hs. unfold is_inplace_op in Hs.
    apply andb_true_iff in Hs as [Hd He]. apply negb_true_iff in Hd.
    destruct (proj1 (endswith_iff s "_") He) as [n ->]. exists n. split; [done|].
    unfold get_func. rewrite Hd, He. by rewrite slice_inplace.
  - intros s func override Hs. unfold is_inplace_op in Hs.
    apply andb_true_iff in Hs as [_ He]. by apply register_one_inplace.
Qed.

Lemma is_inplace_op_spec_witness :
  is_inplace_op "add_" = true ∧
  ∃ n, "add_" = n ++ "_" ∧
       get_func registry_add "add_" = name_to_func_mapping registry_add !! n.
Proof.
  destruct (is_inplace_op_spec registry_add) as (H1 & _ & _ & H4 & _).
  split.
  - apply (H1 "add"). vm_compute. reflexivity.
  - apply (H4 "add_"). vm_compute. reflexivity.
Defined.

(** X6.  The dictionary protocol of the registry is raw: [__getitem__]
    and [__delitem__] raise [KeyError] exactly on a key that is not
    bound (where [get_func] returns [None]), [__getitem__] returns what
    [__setitem__] stored, [__delitem__] unbinds its key and no other,
    and deleting a key just set on a registry that did not have it
    restores the registry. *)
Theorem dict_protocol self key :
  (__getitem__ self key = inl (KeyError key) ↔ __contains__ self key = false) ∧
  (∀ f, __getitem__ self key = inr f ↔ name_to_func_mapping self !! key = Some f) ∧
  (endswith key "_" = false →
     ∀ f, __getitem__ self key = inr f ↔ get_func self key = Some f) ∧
  (∀ value, __getitem__ (__setitem__ key value self).2 key = inr value) ∧
  (∀ value k, k ≠ key →
     __getitem__ (__setitem__ key value self).2 k = __getitem__ self k) ∧
  (__contains__ self key = false → __delitem__ key self = (inl (KeyError key), self)) ∧
  (__contains__ self key = true →
     (__delitem__ key self).1 = inr tt ∧
     __contains__ (__delitem__ key self).2 key = false ∧
     ∀ k, k ≠ key → __getitem__ (__delitem__ key self).2 k = __getitem__ self k) ∧
  (∀ value, __contains__ self key = false →
     __delitem__ key (__setitem__ key value self).2 = (inr tt, self)).
Proof.
  assert (Hget : ∀ f, __getitem__ self key = inr f ↔
                      name_to_func_mapping self !! key = Some f).
  { intros f. unfold __getitem__.
    destruct (name_to_func_mapping self !! key); split; congruence. }
  unfold __contains__, __getitem__, __delitem__, __setitem__. cbn [fst snd name_to_func_mapping].
  split_and!.
  - destruct (name_to_func_mapping self !! key) as [h|] eqn:E.
    + rewrite bool_decide_eq_true_2 by eauto. split; discriminate.
    + rewrite bool_decide_eq_false_2 by (by intros [? ?]). done.
  - exact Hget.
  - intros Hk f. rewrite get_func_plain by done. apply Hget.
  - intros value. by rewrite lookup_insert_eq.
  - intros value k Hne. by rewrite lookup_insert_ne.
  - intros Hc. apply bool_decide_eq_false_1 in Hc.
    destruct (name_to_func_mapping self !! key) as [h|] eqn:E; [|done].
    destruct Hc. eauto.
  - intros Hc. apply bool_decide_eq_true_1 in Hc as [h Hh]. rewrite Hh.
    cbn [fst snd name_to_func_mapping]. rewrite lookup_delete_eq. split_and!.
    + done.
    + apply bool_decide_eq_false_2. by intros [? ?].
    + intros k Hne. by rewrite lookup_delete_ne.
  - intros value Hc. apply bool_decide_eq_false_1 in Hc.
    rewrite lookup_insert_eq. rewrite delete_insert_eq.
    destruct self as [m]. cbn [name_to_func_mapping] in *.
    rewrite delete_id; [done|].
    destruct (m !! key) eqn:E; [|done]. destruct Hc. eauto.
Qed.

Lemma dict_protocol_witness :
  __delitem__ "add_" registry_add = (inl (KeyError "add_"), registry_add) ∧
  __delitem__ "add_" (__setitem__ "add_" add_handler registry_add).2
    = (inr tt, registry_add).
Proof.
  destruct (dict_protocol registry_add "add_") as (_ & _ & _ & _ & _ & H6 & _ & H8).
  split.
  - apply H6. vm_compute. reflexivity.
  - apply H8. vm_compute. reflexivity.
Defined.

Lemma endswith_aten n : endswith ("aten." ++ n) "_" = endswith n "_".
Proof.
  rewrite !app_cons_s, app_nil_s.
  do 5 (rewrite endswith_unfold;
        match goal with |- context [String.eqb ?a ?b] =>
          replace (String.eqb a b) with false
            by (symmetry; apply String.eqb_neq; discriminate)
        end).
  reflexivity.
Qed.

Lemma strip_aten_prefixed n : strip_aten ("aten." ++ n) = n.
Proof.
  unfold strip_aten.
  replace (startswith ("aten." ++ n) "aten.") with true
    by (symmetry; apply startswith_iff; eauto).
  unfold slice, bound. rewrite length_app_s. simpl String.length.
  replace (5 <? 0)%Z with false by reflexivity.
  replace (Nat.min (Z.to_nat 5) (5 + String.length n)) with 5 by lia.
  replace (5 + String.length n - 5) with (String.length n) by lia.
  rewrite !app_cons_s, app_nil_s. simpl String.substring.
  by rewrite substring_0_length.
Qed.

Lemma is_torch_fx_node_supported_unfold lower self node :
  op node = "call_function" → endswith (target_name lower node) "_" = false →
  is_torch_fx_node_supported lower self node
    = inr (__contains__ self (strip_aten (target_name lower node))).
Proof.
  intros Hop Hends. unfold is_torch_fx_node_supported.
  rewrite Hop. simpl negb. cbv iota. fold (target_name lower node). rewrite Hends.
  reflexivity.
Qed.

(** X7.  [register_torch_op] applied to a function raises what
    [register_func] raises and otherwise returns the function itself,
    leaving the registry of [register_func]; without a function it
    returns the decorator and leaves the registry alone.  Once it has
    returned, a [call_function] node is supported if its lower-cased
    target name is [aten.] followed by a target name, or is a target
    name that does not itself start with [aten.] (the gate strips the
    prefix once, so a name registered with the prefix is only found
    under the doubled prefix); [lower] is any lower-casing function. *)
Theorem register_torch_op_spec (lower : string → string) func torch_alias override self :
  (∃ decorator,
     register_torch_op None torch_alias override self = (inr (inr decorator), self) ∧
     ∀ registry,
       register_torch_op (Some func) torch_alias override registry =
         match decorator func registry with
         | (inr f, registry') => (inr (inl f), registry')
         | (inl e, registry') => (inl e, registry')
         end) ∧
  (∀ e self', register_func func torch_alias override self = (inl e, self') →
     register_torch_op (Some func) torch_alias override self = (inl e, self')) ∧
  (∀ self', register_func func torch_alias override self = (inr tt, self') →
     register_torch_op (Some func) torch_alias override self = (inr (inl func), self') ∧
     ∀ node name, op node = "call_function" → name ∈ all_f_names func torch_alias →
       target_name lower node = "aten." ++ name ∨
       (target_name lower node = name ∧ startswith name "aten." = false) →
       is_torch_fx_node_supported lower self' node = inr true).
Proof.
  split_and!.
  - exists (func_wrapper torch_alias override). split; [reflexivity|].
    intros registry. unfold register_torch_op, mbind, M_bind, mret, M_ret.
    by destruct (func_wrapper torch_alias override func registry) as [[e|f] registry'].
  - intros e self' R.
    unfold register_torch_op, func_wrapper, mbind, M_bind, mret, M_ret. by rewrite R.
  - intros self' R. split.
    + unfold register_torch_op, func_wrapper, mbind, M_bind, mret, M_ret. by rewrite R.
    + intros node name Hop Hin Ht.
      assert (endswith name "_" = false ∧ __contains__ self' name = true) as [Hk Hc].
      { rewrite register_func_unfold in R.
        destruct (for_in_register_run func override (all_f_names func torch_alias) self)
          as [[F R'] | (pre & bad & post & e & _ & _ & _ & _ & _ & R')];
          rewrite R' in R; [|discriminate].
        injection R as <-. rewrite Forall_forall in F. split; [by apply F|].
        unfold __contains__. rewrite bind_all_lookup.
        rewrite (bool_decide_eq_true_2 (name ∈ _)) by done.
        apply bool_decide_eq_true_2. eauto. }
      destruct Ht as [Ht|[Ht Hs]].
      * rewrite is_torch_fx_node_supported_unfold, Ht; [|done|].
        -- by rewrite strip_aten_prefixed, Hc.
        -- by rewrite Ht, endswith_aten.
      * rewrite is_torch_fx_node_supported_unfold, Ht by (rewrite ?Ht; done).
        unfold strip_aten. by rewrite Hs, Hc.
Qed.

Lemma register_torch_op_spec_witness :
  is_torch_fx_node_supported lower_ascii
    (register_torch_op (Some sub_handler) None false registry_add).2
    (call_function "aten.Sub") = inr true.
Proof.
  destruct (register_torch_op_spec lower_ascii sub_handler None false registry_add) as (_ & _ & H).
  apply (H (register_torch_op (Some sub_handler) None false registry_add).2
           ltac:(vm_compute; reflexivity)) with (name := "sub").
  - reflexivity.
  - left.
  - left. vm_compute. reflexivity.
Defined.

End TorchOpRegistryExtraProofs.

(** ** Further properties of the no-op elimination pass *)

Module NoopEliminationExtraProofs.
Import NoopElimination NoopEliminationSpec NoopEliminationProofs ExtraSpec.
Local Open Scope nat_scope.
Local Open Scope list_scope.

Lemma remove_same_shape_run op block x out0 :
  getattr op "x" = Return x → outputs_0 op = Return out0 →
  remove_same_shape op block =
    if decide (sym_type x = sym_type out0)
    then Return (true, rewire op block x out0)
    else Return (false, block).
Proof.
  intros Hx Hout. unfold remove_same_shape, rewire. rewrite Hx, Hout.
  cbn [mbind outcome_bind mret outcome_ret].
  case_bool_decide; case_decide; done.
Qed.

(** X9.  [remove_same_shape] reads only the input [x] and the first
    output: it removes the operation, redirecting the uses of the
    output to [x], exactly when the two have the same symbolic type, and
    declines otherwise; it raises when [x] or the output is missing.  A
    removal from a block that holds the operation (its operations
    having distinct names) leaves the block without it and with every
    other operation; from the producer of [x] on, inputs that were the
    output are [x], and nothing there uses the output any more. *)
Theorem remove_same_shape_spec (op : Operation) (block : Block) :
  (∀ e, getattr op "x" = Raise e → remove_same_shape op block = Raise e) ∧
  (∀ x, getattr op "x" = Return x → outputs op = [] →
     remove_same_shape op block = Raise IndexError) ∧
  (∀ x out0, getattr op "x" = Return x → outputs_0 op = Return out0 →
     (sym_type x = sym_type out0 ↔
        remove_same_shape op block = Return (true, rewire op block x out0)) ∧
     (sym_type x ≠ sym_type out0 ↔
        remove_same_shape op block = Return (false, block)) ∧
     ∀ block', remove_same_shape op block = Return (true, block') →
       sym_type x = sym_type out0 ∧
       (NoDup (map name (operations block)) → op ∈ operations block →
          removed_and_redirected op block x out0 block')).
Proof.
  split_and!.
  - intros e Hx. unfold remove_same_shape. by rewrite Hx.
  - intros x Hx Hout. unfold remove_same_shape, outputs_0. by rewrite Hx, Hout.
  - intros x out0 Hx Hout. rewrite (remove_same_shape_run op block x out0) by done.
    case_decide; (split_and!; [split; intros; done..|]); [|done].
    intros block' [= <-]. split; [done|]. apply rewire_removed_and_redirected.
Qed.

Lemma remove_same_shape_spec_witness :
  remove_same_shape reshape_2 reshape_block
    = Return (true, rewire reshape_2 reshape_block v1 v2) ∧
  removed_and_redirected reshape_2 reshape_block v1 v2 main_block'.
Proof.
  destruct (remove_same_shape_spec reshape_2 reshape_block) as (_ & _ & H).
  destruct (H v1 v2 eq_refl eq_refl) as (H1 & _ & H3).
  split; [by apply H1|].
  apply (H3 main_block'); [reflexivity| |].
  - apply (bool_decide_unpack (NoDup _)). vm_compute. exact I.
  - right. left.
Defined.

Lemma ne_cond_false v z : ne_cond (val v) z = Return false → constant_is v z.
Proof.
  unfold constant_is. destruct (val v) as [[z'|[|z' [|??]]]|]; simpl; try done;
    intros [= H]; apply negb_false_iff, Z.eqb_eq in H; subst; eauto.
Qed.

Lemma ne_cond_constant v z z' :
  constant_is v z' → ne_cond (val v) z = Return (negb (z' =? z)%Z).
Proof. by intros [-> | ->]. Qed.

Lemma ne_cond_is v z : constant_is v z → ne_cond (val v) z = Return false.
Proof. intros H. by rewrite (ne_cond_constant v z z H), Z.eqb_refl. Qed.

Lemma ne_cond_array v z l :
  val v = Some (Array l) → 1 < length l → ne_cond (val v) z = Raise ValueError.
Proof. intros -> Hl. destruct l as [|? [|? ?]]; simpl in Hl; [lia..|done]. Qed.

(** X10.  [remove_linear] removes a linear activation exactly when
    [alpha] is the constant 1 and [beta] the constant 0 (scalars or
    arrays of one element), whatever the types of input and output.  It
    declines, without reading [beta], when [alpha] has no compile-time
    value or differs from 1, and it declines when [alpha] is 1 and
    [beta] has no compile-time value or differs from 0; the operand it
    tests raises [ValueError] if it is a constant array of several
    elements.  A removal from a block that holds the operation (its
    operations having distinct names) leaves the block without it and
    with every other operation; from the producer of [x] on, inputs
    that were the output are [x], and nothing there uses the output any
    more. *)
Theorem remove_linear_spec (op : Operation) (block : Block) :
  (∀ e, getattr op "alpha" = Raise e → remove_linear op block = Raise e) ∧
  (∀ alpha, getattr op "alpha" = Return alpha →
     (val alpha = None ∨ ∃ z, z ≠ 1%Z ∧ constant_is alpha z) →
     remove_linear op block = Return (false, block)) ∧
  (∀ alpha l, getattr op "alpha" = Return alpha → val alpha = Some (Array l) →
     1 < length l → remove_linear op block = Raise ValueError) ∧
  (∀ alpha beta,
     getattr op "alpha" = Return alpha → constant_is alpha 1 →
     getattr op "beta" = Return beta →
     ((val beta = None ∨ ∃ z, z ≠ 0%Z ∧ constant_is beta z) →
        remove_linear op block = Return (false, block)) ∧
     (∀ l, val beta = Some (Array l) → 1 < length l →
        remove_linear op block = Raise ValueError)) ∧
  (∀ alpha beta x out0,
     getattr op "alpha" = Return alpha → constant_is alpha 1 →
     getattr op "beta" = Return beta → constant_is beta 0 →
     getattr op "x" = Return x → outputs_0 op = Return out0 →
     remove_linear op block = Return (true, rewire op block x out0)) ∧
  (∀ x out0 block',
     getattr op "x" = Return x → outputs_0 op = Return out0 →
     remove_linear op block = Return (true, block') →
     (∃ alpha beta,
        getattr op "alpha" = Return alpha ∧ constant_is alpha 1 ∧
        getattr op "beta" = Return beta ∧ constant_is beta 0) ∧
     (NoDup (map name (operations block)) → op ∈ operations block →
        removed_and_redirected op block x out0 block')).
Proof.
  split_and!.
  - intros e Ha. unfold remove_linear. by rewrite Ha.
  - intros alpha Ha Hv. unfold remove_linear. rewrite Ha.
    cbn [mbind outcome_bind mret outcome_ret].
    destruct Hv as [-> | (z & Hz & Hc)]; [done|].
    rewrite (ne_cond_constant alpha 1 z Hc).
    by destruct (Z.eqb_spec z 1).
  - intros alpha l Ha Hv Hl. unfold remove_linear. rewrite Ha.
    cbn [mbind outcome_bind mret outcome_ret].
    by rewrite (ne_cond_array alpha 1 l).
  - intros alpha beta Ha Hva Hb.
    assert (Hrun : ∀ b, ne_cond (val beta) 0 = Return b → b = true →
              remove_linear op block = Return (false, block)).
    { intros b Hn ->. unfold remove_linear. rewrite Ha.
      cbn [mbind outcome_bind mret outcome_ret].
      rewrite (ne_cond_is alpha 1 Hva). cbn [mbind outcome_bind]. rewrite Hb.
      cbn [mbind outcome_bind mret outcome_ret]. by rewrite Hn. }
    split.
    + intros [Hv | (z & Hz & Hc)].
      * apply (Hrun true); [by rewrite Hv | done].
      * apply (Hrun (negb (z =? 0)%Z)); [by apply ne_cond_constant|].
        by destruct (Z.eqb_spec z 0).
    + intros l Hv Hl. unfold remove_linear. rewrite Ha.
      cbn [mbind outcome_bind mret outcome_ret].
      rewrite (ne_cond_is alpha 1 Hva). cbn [mbind outcome_bind]. rewrite Hb.
      cbn [mbind outcome_bind mret outcome_ret].
      by rewrite (ne_cond_array beta 0 l).
  - intros alpha beta x out0 Ha Hva Hb Hvb Hx Hout.
    unfold remove_linear, rewire. rewrite Ha, Hb, Hx, Hout.
    cbn [mbind outcome_bind mret outcome_ret].
    rewrite (ne_cond_is alpha 1 Hva). cbn [mbind outcome_bind mret outcome_ret].
    by rewrite (ne_cond_is beta 0 Hvb).
  - intros x out0 block' Hx Hout H. unfold remove_linear in H.
    destruct (getattr op "alpha") as [alpha| |] eqn:Ha;
      cbn [mbind outcome_bind mret outcome_ret] in H; [|done..].
    destruct (ne_cond (val alpha) 1) as [[|]| |] eqn:Hna;
      cbn [mbind outcome_bind mret outcome_ret] in H; [done| |done..].
    destruct (getattr op "beta") as [beta| |] eqn:Hb;
      cbn [mbind outcome_bind mret outcome_ret] in H; [|done..].
    destruct (ne_cond (val beta) 0) as [[|]| |] eqn:Hnb;
      cbn [mbind outcome_bind mret outcome_ret] in H; [done| |done..].
    rewrite Hx, Hout in H. cbn [mbind outcome_bind mret outcome_ret] in H.
    injection H as <-. split.
    + exists alpha, beta. split_and!; [done | by apply ne_cond_false | done
                                       | by apply ne_cond_false].
    + apply rewire_removed_and_redirected.
Qed.

Lemma remove_linear_spec_witness :
  remove_linear linear_2 linear_block
    = Return (true, rewire linear_2 linear_block v1 v2) ∧
  removed_and_redirected linear_2 linear_block v1 v2 main_block'.
Proof.
  destruct (remove_linear_spec linear_2 linear_block) as (_ & _ & _ & _ & H5 & H6).
  split.
  - apply (H5 c1 c0 v1 v2); try reflexivity; by left.
  - apply (H6 v1 v2 main_block'); try reflexivity.
    + apply (bool_decide_unpack (NoDup _)). vm_compute. exact I.
    + right. left.
Defined.

Lemma _match_pattern_run op block out0 rest :
  outputs op = out0 :: rest →
  _match_pattern op block =
    if bool_decide (out0 ∈ block_outputs block) then Return None
    else if bool_decide (op_type op ∈ _SUPPORTED_OPS) then
      if bool_decide (rest ≠ []) then Return None
      else match dict_get (op_type op) op_to_removal_fn with
           | Some f => Return (Some f)
           | None => Raise (KeyError (op_type op))
           end
    else Return None.
Proof.
  intros Hout. unfold _match_pattern, outputs_0. rewrite Hout.
  cbn [mbind outcome_bind mret outcome_ret].
  repeat case_bool_decide; try done; destruct rest; simpl in *; done || lia.
Qed.

Lemma dict_get_strategy key f :
  dict_get key op_to_removal_fn = Some f →
  (key ∈ elementwise_ops → f = remove_elementwise) ∧
  (key ∈ same_shape_ops → f = remove_same_shape) ∧
  (key = "transpose"%string → f = remove_transpose) ∧
  (key = "linear_activation"%string → f = remove_linear).
Proof.
  unfold op_to_removal_fn, elementwise_ops, same_shape_ops. cbn [dict_get].
  repeat (case_decide as Hk;
    [ intros [= <-]; subst key;
      split_and!; first [ reflexivity | intros _; reflexivity
                        | intros Hin; exfalso; revert Hin;
                          apply (bool_decide_eq_false_1 _); vm_compute; reflexivity
                        | discriminate ] | clear Hk ]).
  discriminate.
Qed.

Lemma _match_pattern_matched op outs out0 :
  outputs op = [out0] → out0 ∉ outs → op_type op ∈ _SUPPORTED_OPS →
  ∃ f, _match_pattern op (mkBlock [] outs) = Return (Some f) ∧
       dict_get (op_type op) op_to_removal_fn = Some f.
Proof.
  intros Hout Hnin Hsup. rewrite (_match_pattern_run op _ out0 []) by done.
  cbn [block_outputs].
  rewrite bool_decide_eq_false_2, bool_decide_eq_true_2, bool_decide_eq_false_2;
    [|by intros ?|done..].
  destruct (dict_get_supported (op_type op)) as [f ->]; [done|]. by exists f.
Qed.

Lemma elementwise_supported t : t ∈ elementwise_ops → t ∈ _SUPPORTED_OPS.
Proof.
  unfold elementwise_ops. intros Hin.
  repeat (apply elem_of_cons in Hin as [->|Hin]; [solve_elem|]).
  by apply elem_of_nil in Hin.
Qed.

Lemma same_shape_supported t : t ∈ same_shape_ops → t ∈ _SUPPORTED_OPS.
Proof.
  unfold same_shape_ops. intros Hin.
  repeat (apply elem_of_cons in Hin as [->|Hin]; [solve_elem|]).
  by apply elem_of_nil in Hin.
Qed.

(** X11.  The matcher raises [IndexError] on an operation without
    output and otherwise never raises: the two tables have the same
    keys.  It hands out a strategy exactly for an operation of a
    supported type with a single output that is not a declared output of
    the block, and the strategy is the one for the type; the last branch
    of [remove_elementwise] declines any other type. *)
Theorem _match_pattern_spec (op : Operation) (block : Block) :
  (outputs op = [] → _match_pattern op block = Raise IndexError) ∧
  (∀ out0 rest, outputs op = out0 :: rest →
     (out0 ∈ block_outputs block ∨ rest ≠ [] ∨ op_type op ∉ _SUPPORTED_OPS ↔
        _match_pattern op block = Return None) ∧
     ((out0 ∉ block_outputs block) ∧ rest = [] ∧ op_type op ∈ _SUPPORTED_OPS ↔
        ∃ f, _match_pattern op block = Return (Some f))) ∧
  (∀ f, _match_pattern op block = Return (Some f) →
     (op_type op ∈ elementwise_ops → f = remove_elementwise) ∧
     (op_type op ∈ same_shape_ops → f = remove_same_shape) ∧
     (op_type op = "transpose"%string → f = remove_transpose) ∧
     (op_type op = "linear_activation"%string → f = remove_linear)) ∧
  (op_type op ∉ elementwise_ops → remove_elementwise op block = Return (false, block)).
Proof.
  split_and!.
  - intros Hout. unfold _match_pattern, outputs_0. by rewrite Hout.
  - intros out0 rest Hout.
    rewrite (_match_pattern_run op block out0 rest Hout).
    repeat case_bool_decide.
    + split; split; try done; [by left | by intros (? & _) | by intros [? ?]].
    + split; split; try done; [by right; left | by intros (_ & ? & _) | by intros [? ?]].
    + destruct (dict_get_supported (op_type op)) as [f ->]; [done|].
      assert (rest = []) by (by destruct rest).
      split; split; try done; [by intros [?|[?|?]] | by eauto].
    + split; split; try done; [by right; right | by intros (_ & _ & ?) | by intros [? ?]].
  - intros f Hm.
    destruct (_match_pattern_Some _ _ _ Hm) as (_ & out0 & _ & _ & _ & Hd).
    by apply dict_get_strategy.
  - intros Ht. unfold remove_elementwise.
    unfold elementwise_ops in Ht.
    repeat (case_bool_decide as Hb;
      [ exfalso; apply Ht;
        repeat (apply elem_of_cons in Hb as [->|Hb]; [solve_elem|]);
        by apply elem_of_nil in Hb | clear Hb ]).
    reflexivity.
Qed.

Lemma _match_pattern_spec_witness :
  _match_pattern mul_3 main_block = Return None ∧
  ∃ f, _match_pattern add_2 main_block = Return (Some f).
Proof.
  split.
  - apply (_match_pattern_spec mul_3 main_block) with (out0 := v3) (rest := []);
      [reflexivity|]. left. by left.
  - apply (_match_pattern_spec add_2 main_block) with (out0 := v2) (rest := []);
      [reflexivity|]. split_and!.
    + apply (bool_decide_eq_false_1 (v2 ∈ block_outputs main_block)).
      vm_compute. reflexivity.
    + reflexivity.
    + by left.
Defined.

(** *** What the pass removes *)

Lemma same_frame_refl op : same_frame op op.
Proof. done. Qed.

Lemma same_frame_trans op1 op2 op3 :
  same_frame op1 op2 → same_frame op2 op3 → same_frame op1 op3.
Proof.
  intros [(?&?&?) ?] [(?&?&?) ?]. unfold same_frame, same_interface.
  split_and!; congruence.
Qed.

Lemma removable_same_frame self outs op op' :
  same_frame op op' → removable self outs op' → removable self outs op.
Proof.
  intros [(Hn & Ht & Ho) Hb] (Hnil & Hout & Hsup & Hskip).
  rewrite Hnil in Hb. unfold removable. rewrite <- Hn, <- Ht, <- Ho.
  split_and!; [|done..]. by destruct (blocks op).
Qed.

Lemma remains_Forall2 can_go ops ops' :
  Forall2 same_frame ops ops' → remains can_go ops ops'.
Proof. induction 1; constructor; auto. Qed.

Lemma remains_refl can_go ops : remains can_go ops ops.
Proof. induction ops; constructor; auto using same_frame_refl. Qed.

Lemma remains_trans self outs l1 l2 l3 :
  remains (removable self outs) l1 l2 → remains (removable self outs) l2 l3 →
  remains (removable self outs) l1 l3.
Proof.
  intros H12. revert l3. induction H12 as [|op op' ops ops' Hi _ IH|op ops ops' Hp _ IH];
    intros l3 H23.
  - done.
  - inversion H23 as [|? op'' ? ops'' Hi' H'|? ? ? Hp' H']; subst.
    + apply remains_keep; [by eapply same_frame_trans | by apply IH].
    + apply remains_drop; [by eapply removable_same_frame | by apply IH].
  - apply remains_drop; [done | by apply IH].
Qed.

Lemma remains_names can_go ops ops' :
  remains can_go ops ops' → map name ops' `sublist_of` map name ops.
Proof.
  induction 1 as [|op op' ops ops' [(Hn&_&_) _] _ IH|op ops ops' _ _ IH]; simpl.
  - done.
  - rewrite Hn. by apply sublist_skip.
  - by apply sublist_cons.
Qed.

Lemma remains_NoDup can_go ops ops' :
  remains can_go ops ops' → NoDup (map name ops) → NoDup (map name ops').
Proof. intros H%remains_names HN. by eapply sublist_NoDup. Qed.

Lemma remains_not_removable can_go ops ops' :
  remains can_go ops ops' →
  ∀ op, op ∈ ops → ¬ can_go op → ∃ op', op' ∈ ops' ∧ same_frame op op'.
Proof.
  induction 1 as [|o o' ops ops' Hi _ IH|o ops ops' Hp _ IH]; intros op Hin Hprot.
  - by apply elem_of_nil in Hin.
  - apply elem_of_cons in Hin as [->|Hin].
    + exists o'. split; [by left | done].
    + destruct (IH op Hin Hprot) as (op' & ? & ?). exists op'. split; [by right | done].
  - apply elem_of_cons in Hin as [->|Hin]; [done|]. by apply IH.
Qed.

Lemma replace_in_op_frame old new op : same_frame op (replace_in_op old new op).
Proof. destruct op. split; [done|]. cbn. by rewrite length_map. Qed.

Lemma replace_uses_frame block anchor old new :
  Forall2 same_frame (operations block)
    (operations (replace_uses_of_var_after_op block anchor old new)).
Proof.
  unfold replace_uses_of_var_after_op. cbn [operations].
  generalize (match anchor with
              | Some a => default 0 (find_op_id_in_block block a)
              | None => 0
              end) as start.
  intros start. rewrite <- (take_drop start (operations block)) at 1.
  apply Forall2_app; [apply Forall_Forall2_diag, Forall_forall; intros; done|].
  apply Forall2_fmap_r, Forall_Forall2_diag, Forall_forall.
  intros; apply replace_in_op_frame.
Qed.

Lemma remove_op_remains can_go x : ∀ done rest l2,
  Forall2 same_frame (done ++ x :: rest) l2 →
  NoDup (map name (done ++ x :: rest)) →
  can_go x →
  remains can_go (done ++ x :: rest) (remove_op (name x) l2).
Proof.
  intros done. induction done as [|d done IH]; intros rest l2 HF HN Hp.
  - simpl in *. inversion HF as [|? y ? l2' [(Hn&_) _] HF']; subst. simpl.
    rewrite decide_True by done.
    apply remains_drop; [done|]. by apply remains_Forall2.
  - simpl in *. inversion HF as [|? y ? l2' Hi HF']; subst. simpl.
    apply NoDup_cons in HN as [Hd HN].
    rewrite decide_False.
    + apply remains_keep; [done|]. by apply IH.
    + destruct Hi as [(Hn&_) _]. rewrite Hn. intros Heq. apply Hd.
      rewrite Heq, map_app. apply elem_of_app. right. by left.
Qed.

Lemma for_blocks_length conv : ∀ bs bs',
  for_blocks conv bs = Return bs' → length bs' = length bs.
Proof.
  induction bs as [|b bs IH]; intros bs'; cbn [for_blocks].
  - by intros [= <-].
  - destruct (conv b) as [b'| |]; cbn [mbind outcome_bind]; [|done..].
    destruct (for_blocks conv bs) as [bs''| |]; cbn [mbind outcome_bind]; [|done..].
    intros [= <-]. simpl. by rewrite (IH bs'').
Qed.

Lemma scan_operations_retained self conv :
  ∀ rest done outs changed b',
    NoDup (map name (done ++ rest)) →
    scan_operations self conv rest (length done) (mkBlock (done ++ rest) outs)
      = Return (changed, b') →
    retained self (mkBlock (done ++ rest) outs) b'.
Proof.
  intros rest. induction rest as [|op rest IH]; intros done outs c b' HN Hscan.
  - cbn in Hscan. injection Hscan as <- <-. split; [done | apply remains_refl].
  - destruct (for_blocks conv (blocks op)) as [bs| |] eqn:Hfor.
    2: { by rewrite (scan_operations_raise _ _ _ _ _ _ _ Hfor) in Hscan. }
    2: { by rewrite (scan_operations_fuel _ _ _ _ _ _ Hfor) in Hscan. }
    set (op' := set_blocks op bs).
    assert (Hi : same_frame op op').
    { split; [done|]. by apply for_blocks_length in Hfor. }
    assert (HF : Forall2 same_frame (done ++ op :: rest) (done ++ op' :: rest)).
    { apply Forall2_app; [apply Forall_Forall2_diag, Forall_forall; intros; done|].
      constructor; [done|]. apply Forall_Forall2_diag, Forall_forall; intros; done. }
    assert (HN' : NoDup (map name (done ++ op' :: rest))).
    { eapply remains_NoDup; [by apply (remains_Forall2 (λ _, False))|done]. }
    destruct (scan_operations_step self outs op') as (k & Hk & _ & _ & Hsup & Hstep).
    rewrite (Hstep conv op rest done) in Hscan by done.
    unfold retained. cbn [block_outputs operations].
    destruct k as [|e|iv o0]; [|done|].
    + destruct (snoc_middle done rest op') as [Heq _].
      apply IH in Hscan as [Ho Hs]; [|by rewrite Heq].
      cbn [block_outputs operations] in Ho, Hs. rewrite Heq in Hs.
      split; [done|]. eapply remains_trans; [by apply remains_Forall2|done].
    + injection Hscan as <- <-.
      destruct (Hk iv o0 eq_refl) as (Hnil & Hout & Hnin & Hskip).
      unfold rewire, remove_ops. cbn [block_outputs operations foldl].
      split; [unfold replace_uses_of_var_after_op; by apply subst_var_notin|].
      eapply remains_trans; [by apply remains_Forall2|].
      apply remove_op_remains;
        [apply (replace_uses_frame (mkBlock (done ++ op' :: rest) outs)) | done |].
      split_and!; [done | by exists o0 | by eapply Hsup | done].
Qed.

Lemma retained_trans self b1 b2 b3 :
  retained self b1 b2 → retained self b2 b3 → retained self b1 b3.
Proof.
  intros [Ho1 Hs1] [Ho2 Hs2]. split; [congruence|].
  rewrite Ho1 in Hs2. by eapply remains_trans.
Qed.

Lemma _noop_elimination_block_retained self n b changed b' :
  NoDup (map name (operations b)) →
  _noop_elimination_block self n b = Return (changed, b') → retained self b b'.
Proof.
  destruct n as [|n]; [done|]. cbn [_noop_elimination_block].
  destruct b as [ops outs]. cbn [operations]. intros HN Hscan.
  by apply (scan_operations_retained self _ ops []) in Hscan.
Qed.

Lemma while_block_changed_retained self step :
  (∀ b changed b', NoDup (map name (operations b)) →
     step b = Return (changed, b') → retained self b b') →
  ∀ k b b', NoDup (map name (operations b)) →
    while_block_changed step k b = Return b' → retained self b b'.
Proof.
  intros Hstep k. induction k as [|k IH]; intros b b' HN; cbn [while_block_changed];
    [done|].
  destruct (step b) as [[c b1]| |] eqn:Hs; cbn [mbind outcome_bind mret outcome_ret];
    [|done..].
  pose proof (Hstep _ _ _ HN Hs) as Hk.
  destruct c.
  - intros Hw. eapply retained_trans; [done|].
    apply IH; [|done]. destruct Hk as [_ Hk]. by eapply remains_NoDup.
  - intros [= <-]. done.
Qed.

(** X12.  The pass removes only removable operations: on functions
    whose operations have distinct names, [apply] keeps the function
    names and the declared outputs, and what it leaves of a top-level
    block is the block, in order and up to in-place updates, without
    some operations that have no nested block, a single output that is
    not a declared output, a supported type and a name outside the skip
    set.  Every other operation is still there, with its name, type,
    outputs and number of nested blocks. *)
Theorem apply_removes_only_removable (self : noop_elimination) (fuel : nat)
    (prog prog' : Program) :
  Forall (λ f, NoDup (map name (operations f.2))) prog →
  apply self fuel prog = Return prog' →
  Forall2 (λ f f',
    f'.1 = f.1 ∧
    block_outputs f'.2 = block_outputs f.2 ∧
    remains (removable self (block_outputs f.2)) (operations f.2) (operations f'.2) ∧
    ∀ op, op ∈ operations f.2 →
      0 < length (blocks op) ∨ length (outputs op) ≠ 1 ∨
      op_type op ∉ _SUPPORTED_OPS ∨ name op ∈ ops_to_skip self ∨
      (∃ out0, out0 ∈ outputs op ∧ out0 ∈ block_outputs f.2) →
      ∃ op', op' ∈ operations f'.2 ∧ same_frame op op')
    prog prog'.
Proof.
  intros HN Hrun. unfold apply in Hrun.
  eapply Forall2_impl.
  - eapply (for_functions_Forall2 _ (λ f, NoDup (map name (operations f)))
              (retained self)); [|done..].
    intros f f' Hf Hw. eapply while_block_changed_retained; [|done..].
    intros b c b' Hb Hs. by eapply _noop_elimination_block_retained.
  - intros [n f] [n' f'] [Hn [Ho Hr]]. split_and!; [done..|].
    intros op Hin Hcase. apply (remains_not_removable _ _ _ Hr op Hin).
    intros (Hnil & (out0 & Hout & Hnin) & Hsup & Hskip).
    destruct Hcase as [H|[H|[H|[H|(o & Ho1 & Ho2)]]]]; try done.
    + rewrite Hnil in H. simpl in H. lia.
    + by rewrite Hout in H.
    + rewrite Hout in Ho1. apply list_elem_of_singleton in Ho1 as ->. done.
Qed.

Lemma apply_removes_only_removable_witness :
  Forall2 (λ f f',
    f'.1 = f.1 ∧
    block_outputs f'.2 = block_outputs f.2 ∧
    remains (removable skip_add_2 (block_outputs f.2)) (operations f.2) (operations f'.2) ∧
    ∀ op, op ∈ operations f.2 →
      0 < length (blocks op) ∨ length (outputs op) ≠ 1 ∨
      op_type op ∉ _SUPPORTED_OPS ∨ name op ∈ ops_to_skip skip_add_2 ∨
      (∃ out0, out0 ∈ outputs op ∧ out0 ∈ block_outputs f.2) →
      ∃ op', op' ∈ operations f'.2 ∧ same_frame op op')
    main_prog main_prog.
Proof.
  apply (apply_removes_only_removable skip_add_2 5 main_prog main_prog).
  - apply Forall_cons_2; [|apply Forall_nil_2].
    apply (bool_decide_unpack (NoDup (map name (operations main_block)))).
    vm_compute. exact I.
  - vm_compute. reflexivity.
Defined.

(** *** The fixed point *)

Lemma scan_operations_leaf self conv op rest done outs f :
  blocks op = [] → name op ∉ ops_to_skip self →
  _match_pattern op (mkBlock [] outs) = Return (Some f) →
  scan_operations self conv (op :: rest) (length done)
      (mkBlock (done ++ op :: rest) outs) =
    '(status, block') ← f op (mkBlock (done ++ op :: rest) outs);
    if (status : bool) then mret (status, block')
    else scan_operations self conv rest (S (length done)) block'.
Proof.
  intros Hnil Hskip Hm. cbn [scan_operations]. rewrite Hnil.
  cbn [for_blocks mbind outcome_bind mret outcome_ret].
  rewrite <- Hnil, set_blocks_blocks. rewrite Hnil.
  unfold set_operations. cbn [operations block_outputs length].
  rewrite list_insert_middle.
  rewrite bool_decide_eq_false_2 by lia.
  rewrite (_match_pattern_outputs op (mkBlock (done ++ op :: rest) outs)
             (mkBlock [] outs)) by done.
  rewrite Hm. cbn [mbind outcome_bind].
  by rewrite bool_decide_eq_true_2 by done.
Qed.

Lemma for_blocks_Forall conv (P : Block → Prop) :
  (∀ nb nb', conv nb = Return nb' → P nb') →
  ∀ bs bs', for_blocks conv bs = Return bs' → Forall P bs'.
Proof.
  intros Hconv bs. induction bs as [|b bs IH]; intros bs'; cbn [for_blocks].
  - intros [= <-]. constructor.
  - destruct (conv b) as [b'| |] eqn:Hb; cbn [mbind outcome_bind]; [|done..].
    destruct (for_blocks conv bs) as [bs''| |] eqn:Hbs; cbn [mbind outcome_bind]; [|done..].
    intros [= <-]. constructor; [by eapply Hconv | by apply IH].
Qed.

Lemma scan_operations_settled self conv :
  (∀ nb nb', conv nb = Return nb' → settled_block self nb') →
  ∀ rest done outs b',
    scan_operations self conv rest (length done) (mkBlock (done ++ rest) outs)
      = Return (false, b') →
    ∃ rest',
      b' = mkBlock (done ++ rest') outs ∧ Forall (settled_operation self outs) rest'.
Proof.
  intros Hconv rest. induction rest as [|op rest IH]; intros done outs b' Hscan.
  - cbn in Hscan. injection Hscan as <-. exists []. split; [done | constructor].
  - destruct (for_blocks conv (blocks op)) as [bs| |] eqn:Hfor.
    2: { by rewrite (scan_operations_raise _ _ _ _ _ _ _ Hfor) in Hscan. }
    2: { by rewrite (scan_operations_fuel _ _ _ _ _ _ Hfor) in Hscan. }
    set (op' := set_blocks op bs).
    assert (Hbs : blocks op' = bs) by done.
    assert (Hdecl : declined self outs op').
    { intros Hnil' Hskip f Hm. rewrite Hbs in Hnil'.
      assert (blocks op = []) as Hnil.
      { apply for_blocks_length in Hfor. rewrite Hnil' in Hfor. by destruct (blocks op). }
      assert (op' = op) as Hop.
      { unfold op'. rewrite Hnil', <- Hnil. apply set_blocks_blocks. }
      rewrite Hop in Hm, Hskip |- *.
      rewrite (scan_operations_leaf self conv op rest done outs f) in Hscan by done.
      destruct (_match_pattern_Some _ _ _ Hm) as [Hu _].
      destruct (Hu op) as [[e He] | [Hd | (iv & o0 & _ & Hr)]]; [|done|].
      - by rewrite He in Hscan.
      - by rewrite Hr in Hscan. }
    assert (Hnested : Forall (settled_block self) (blocks op')).
    { rewrite Hbs. by apply (for_blocks_Forall conv _ Hconv (blocks op)). }
    destruct (scan_operations_step self outs op') as (k & _ & _ & _ & _ & Hstep).
    rewrite (Hstep conv op rest done) in Hscan by done.
    destruct k as [|e|iv o0]; [|done..].
    apply IH in Hscan as (rest' & -> & Hrest).
    exists (op' :: rest'). destruct (snoc_middle done rest' op') as [Heq _].
    split; [by rewrite Heq|].
    constructor; [by constructor | done].
Qed.

Lemma while_block_changed_last step (P : Block → Prop) :
  (∀ b b', step b = Return (false, b') → P b') →
  ∀ k b b', while_block_changed step k b = Return b' → P b'.
Proof.
  intros Hstep k. induction k as [|k IH]; intros b b'; cbn [while_block_changed]; [done|].
  destruct (step b) as [[[|] b1]| |] eqn:Hs; cbn [mbind outcome_bind mret outcome_ret];
    [by apply IH | | done..].
  intros [= <-]. by eapply Hstep.
Qed.

Lemma _noop_elimination_block_settled self n :
  ∀ b b', _noop_elimination_block self n b = Return (false, b') → settled_block self b'.
Proof.
  induction n as [|n IH]; intros b b'; cbn [_noop_elimination_block]; [done|].
  destruct b as [ops outs]. cbn [operations]. intros Hscan.
  apply (scan_operations_settled self _) with (done := []) in Hscan
    as (rest' & -> & Hrest); [by constructor|].
  apply (while_block_changed_last _ _ IH).
Qed.

(** X13.  When [apply] returns, the pass has nothing left to do: in
    every block, at every depth, each operation without nested blocks
    and outside the skip set for which the matcher hands out a strategy
    is declined by the strategy.  In particular no elementwise operation
    with an identity-constant operand and no same-shape operation whose
    surviving input has the type of its output is left in a top-level
    block, unless its output is a declared output of the block. *)
Theorem apply_leaves_no_noop (self : noop_elimination) (fuel : nat)
    (prog prog' : Program) :
  apply self fuel prog = Return prog' →
  Forall (λ f, settled_block self f.2) prog' ∧
  ∀ f' op out0,
    f' ∈ prog' → op ∈ operations f'.2 →
    blocks op = [] → name op ∉ ops_to_skip self →
    outputs op = [out0] → out0 ∉ block_outputs f'.2 →
    (op_type op ∈ elementwise_ops →
       ∀ x y input_var,
         getattr op "x" = Return x → getattr op "y" = Return y →
         surviving_operand (op_type op) x y = Some input_var →
         sym_type input_var ≠ sym_type out0) ∧
    (op_type op ∈ same_shape_ops →
       ∀ x, getattr op "x" = Return x → sym_type x ≠ sym_type out0).
Proof.
  intros Hrun.
  assert (Forall (λ f, settled_block self f.2) prog') as Hall.
  { unfold apply in Hrun.
    eapply (for_functions_Forall _ (settled_block self)); [|exact Hrun].
    intros f f'. apply while_block_changed_last.
    apply _noop_elimination_block_settled. }
  split; [exact Hall|].
  intros f' op out0 Hf Hop Hnil Hskip Hout Hnin.
  rewrite Forall_forall in Hall. specialize (Hall f' Hf).
  inversion Hall as [? Hops]; subst. rewrite Forall_forall in Hops.
  specialize (Hops op Hop). inversion Hops as [? ? Hdecl _]; subst.
  pose proof (outputs_0_cons _ _ _ Hout) as Ho.
  split.
  - intros Ht x y iv Hx Hy Hs Heq.
    destruct (_match_pattern_matched op (block_outputs f'.2) out0) as (f & Hm & Hd);
      [done | done | by apply elementwise_supported |].
    destruct (dict_get_strategy _ _ Hd) as (Hf' & _). rewrite (Hf' Ht) in Hm.
    specialize (Hdecl Hnil Hskip _ Hm (mkBlock [] [])).
    rewrite (remove_elementwise_run op _ x y out0), Hs in Hdecl by done.
    by rewrite decide_True in Hdecl by done.
  - intros Ht x Hx Heq.
    destruct (_match_pattern_matched op (block_outputs f'.2) out0) as (f & Hm & Hd);
      [done | done | by apply same_shape_supported |].
    destruct (dict_get_strategy _ _ Hd) as (_ & Hf' & _). rewrite (Hf' Ht) in Hm.
    specialize (Hdecl Hnil Hskip _ Hm (mkBlock [] [])).
    rewrite (remove_same_shape_run op _ x out0) in Hdecl by done.
    by rewrite decide_True in Hdecl by done.
Qed.

Lemma apply_leaves_no_noop_witness :
  Forall (λ f, settled_block __init__ f.2) nested_prog'.
Proof.
  apply (apply_leaves_no_noop __init__ 20 nested_prog nested_prog').
  vm_compute. reflexivity.
Defined.

(** *** Programs the pass does not touch *)

Lemma unhandled_match op block :
  outputs op ≠ [] → op_type op ∉ _SUPPORTED_OPS → _match_pattern op block = Return None.
Proof.
  intros Hout Hsup. destruct (outputs op) as [|out0 rest] eqn:Ho; [done|].
  rewrite (_match_pattern_run op block out0 rest Ho).
  case_bool_decide; [done|]. by rewrite bool_decide_eq_false_2.
Qed.

Lemma for_blocks_unchanged conv : ∀ bs,
  Forall (λ nb, conv nb ≠ OutOfFuel → conv nb = Return nb) bs →
  for_blocks conv bs ≠ OutOfFuel → for_blocks conv bs = Return bs.
Proof.
  induction 1 as [|nb bs Hnb _ IH]; cbn [for_blocks]; [done|].
  destruct (conv nb) as [nb'|e|] eqn:Hc; cbn [mbind outcome_bind];
    [|by specialize (Hnb ltac:(done))|done].
  specialize (Hnb ltac:(done)). injection Hnb as ->.
  destruct (for_blocks conv bs) as [bs'|e|] eqn:Hb; cbn [mbind outcome_bind mret outcome_ret];
    [|by specialize (IH ltac:(done))|done].
  intros _. specialize (IH ltac:(done)). by injection IH as ->.
Qed.

Lemma scan_operations_unchanged self conv :
  ∀ rest done outs,
    Forall (λ op, outputs op ≠ [] ∧ (op_type op ∉ _SUPPORTED_OPS) ∧
                  Forall (λ nb, conv nb ≠ OutOfFuel → conv nb = Return nb) (blocks op))
           rest →
    scan_operations self conv rest (length done) (mkBlock (done ++ rest) outs)
      ≠ OutOfFuel →
    scan_operations self conv rest (length done) (mkBlock (done ++ rest) outs)
      = Return (false, mkBlock (done ++ rest) outs).
Proof.
  intros rest. induction rest as [|op rest IH]; intros done outs Hall Hfuel.
  { reflexivity. }
  apply Forall_cons in Hall as [(Hout & Hsup & Hnested) Hall].
  apply for_blocks_unchanged in Hnested.
  2: { intros Hfor. by rewrite (scan_operations_fuel _ _ _ _ _ _ Hfor) in Hfuel. }
  destruct (scan_operations_step self outs op) as (k & _ & _ & Hraise & Hsup' & Hstep).
  specialize (Hstep conv op rest done Hnested (set_blocks_blocks op)).
  rewrite Hstep in Hfuel |- *.
  destruct k as [|e|iv o0].
  - destruct (snoc_middle done rest op) as [Heq _].
    rewrite Heq in Hfuel |- *. rewrite <- Heq. apply IH; [done|]. by rewrite Heq.
  - destruct (Hraise e eq_refl) as [Hm | (f & Hm & _)];
      by rewrite unhandled_match in Hm.
  - destruct Hsup. by eapply Hsup'.
Qed.

Lemma while_block_changed_unchanged step k b :
  (step b ≠ OutOfFuel → step b = Return (false, b)) →
  while_block_changed step k b ≠ OutOfFuel → while_block_changed step k b = Return b.
Proof.
  intros Hstep. destruct k as [|k]; [done|]. cbn [while_block_changed].
  destruct (step b) as [[c b']|e|] eqn:Hs; cbn [mbind outcome_bind mret outcome_ret];
    [|by specialize (Hstep ltac:(done))|done].
  specialize (Hstep ltac:(done)). by injection Hstep as -> ->.
Qed.

Lemma unhandled_operation_unchanged self op :
  unhandled_operation op →
  outputs op ≠ [] ∧ (op_type op ∉ _SUPPORTED_OPS) ∧
  Forall (λ nb, ∀ n, _noop_elimination_block self n nb ≠ OutOfFuel →
                     _noop_elimination_block self n nb = Return (false, nb))
         (blocks op).
Proof.
  apply (Operation_tree_ind
           (λ op, unhandled_operation op →
              outputs op ≠ [] ∧ (op_type op ∉ _SUPPORTED_OPS) ∧
              Forall (λ nb, ∀ n, _noop_elimination_block self n nb ≠ OutOfFuel →
                                 _noop_elimination_block self n nb = Return (false, nb))
                     (blocks op))
           (λ b, unhandled_block b →
              ∀ n, _noop_elimination_block self n b ≠ OutOfFuel →
                   _noop_elimination_block self n b = Return (false, b))).
  - intros nm t ins outs bs IH Hop. inversion Hop as [? Hout Hsup Hbs]; subst.
    cbn [outputs op_type blocks] in *. split_and!; [done..|].
    rewrite Forall_forall in IH, Hbs |- *. intros nb Hin. by apply IH, Hbs.
  - intros ops outs IH Hblk n. inversion Hblk as [? Hops]; subst.
    cbn [operations] in Hops.
    destruct n as [|n]; [done|]. cbn [_noop_elimination_block operations].
    apply (scan_operations_unchanged self _ ops [] outs).
    rewrite Forall_forall in IH, Hops |- *. intros op' Hin.
    destruct (IH op' Hin (Hops op' Hin)) as (Hout & Hsup & Hnested).
    split_and!; [done..|]. rewrite Forall_forall in Hnested |- *.
    intros nb Hnb. apply while_block_changed_unchanged. by apply Hnested.
Qed.

Lemma _noop_elimination_block_unchanged self b n :
  unhandled_block b →
  _noop_elimination_block self n b ≠ OutOfFuel →
  _noop_elimination_block self n b = Return (false, b).
Proof.
  intros Hblk. inversion Hblk as [? Hops]; subst. destruct b as [ops outs].
  cbn [operations] in Hops.
  destruct n as [|n]; [done|]. cbn [_noop_elimination_block operations].
  apply (scan_operations_unchanged self _ ops [] outs).
  rewrite Forall_forall in Hops |- *. intros op Hin.
  destruct (unhandled_operation_unchanged self op (Hops op Hin)) as (Hout & Hsup & Hnested).
  split_and!; [done..|]. rewrite Forall_forall in Hnested |- *.
  intros nb Hnb. apply while_block_changed_unchanged. by apply Hnested.
Qed.

Lemma for_functions_unchanged body : ∀ prog,
  Forall (λ f, body f.2 ≠ OutOfFuel → body f.2 = Return f.2) prog →
  for_functions body prog ≠ OutOfFuel → for_functions body prog = Return prog.
Proof.
  induction 1 as [|[fname f] prog Hf _ IH]; cbn [for_functions]; [done|].
  cbn [snd] in Hf.
  destruct (body f) as [f'|e|] eqn:Hc; cbn [mbind outcome_bind];
    [|by specialize (Hf ltac:(done))|done].
  specialize (Hf ltac:(done)). injection Hf as ->.
  destruct (for_functions body prog) as [prog'|e|] eqn:Hb;
    cbn [mbind outcome_bind mret outcome_ret];
    [|by specialize (IH ltac:(done))|done].
  intros _. specialize (IH ltac:(done)). by injection IH as ->.
Qed.

(** X14.  The pass touches nothing but operations of the supported
    types: a block without any, at any depth, is scanned once and
    reported unchanged, and [apply] returns such a program as it is. *)
Theorem apply_unhandled_unchanged (self : noop_elimination) :
  (∀ fuel block, unhandled_block block → block_size block ≤ fuel →
     _noop_elimination_block self fuel block = Return (false, block)) ∧
  (∀ fuel prog, Forall (λ f, unhandled_block f.2) prog → program_size prog ≤ fuel →
     apply self fuel prog = Return prog).
Proof.
  split.
  - intros fuel block Hb Hfuel. apply _noop_elimination_block_unchanged; [done|].
    pose proof (_noop_elimination_block_shrinks self fuel block Hfuel) as Hs.
    intros Heq. by rewrite Heq in Hs.
  - intros fuel prog Hall Hfuel.
    pose proof (apply_fuel self fuel prog Hfuel) as Hne. unfold apply in *.
    apply for_functions_unchanged; [|done].
    rewrite Forall_forall in Hall |- *. intros f Hf.
    apply while_block_changed_unchanged.
    by apply _noop_elimination_block_unchanged, Hall.
Qed.

Lemma apply_unhandled_unchanged_witness : apply __init__ 10 relu_prog = Return relu_prog.
Proof.
  apply (apply_unhandled_unchanged __init__).
  - repeat (first [ apply Forall_cons_2 | apply Forall_nil_2
                  | apply unhandled_block_intro | apply unhandled_operation_intro
                  | done
                  | apply (bool_decide_eq_false_1 (_ ∈ _)); vm_compute; reflexivity ]).
  - vm_compute. lia.
Defined.

(** *** Sizes *)

Lemma for_functions_sizes body : ∀ prog prog',
  Forall (λ f, converges f.2 (body f.2)) prog →
  for_functions body prog = Return prog' →
  Forall2 (λ f f', f'.1 = f.1 ∧ block_size f'.2 ≤ block_size f.2) prog prog'.
Proof.
  intros prog prog' Hall. revert prog'.
  induction Hall as [|[fname f] prog Hf _ IH]; intros prog'; cbn [for_functions].
  - intros [= <-]. constructor.
  - cbn [snd] in Hf.
    destruct (body f) as [f'| |] eqn:Hb; cbn [mbind outcome_bind]; [|done..].
    destruct (for_functions body prog) as [prog''| |] eqn:Hp;
      cbn [mbind outcome_bind]; [|done..].
    intros [= <-]. constructor; [done | by apply IH].
Qed.

(** X15.  Whatever the fuel, a program that [apply] returns has the
    functions of the given one, under the same names and in the same
    order, and none of them has grown: the number of operations and
    blocks, at all depths, of each function is at most what it was. *)
Theorem apply_never_grows (self : noop_elimination) (fuel : nat)
    (prog prog' : Program) :
  apply self fuel prog = Return prog' →
  map fst prog' = map fst prog ∧
  Forall2 (λ f f', block_size f'.2 ≤ block_size f.2) prog prog' ∧
  program_size prog' ≤ program_size prog.
Proof.
  intros Hrun.
  set (N := fuel `max` program_size prog).
  assert (apply self N prog = Return prog') as HrunN.
  { rewrite <- Hrun. apply apply_mono; [lia | by rewrite Hrun]. }
  assert (Forall2 (λ f f', f'.1 = f.1 ∧ block_size f'.2 ≤ block_size f.2) prog prog')
    as Hall.
  { unfold apply in HrunN. eapply for_functions_sizes; [|exact HrunN].
    apply Forall_forall. intros [fname f] Hin. cbn [snd].
    assert (block_size f ≤ N).
    { etrans; [|apply Nat.le_max_r]. unfold program_size.
      apply list_sum_elem, list_elem_of_fmap. by exists (fname, f). }
    apply (while_block_changed_converges _ N); [|done..].
    intros b Hb. by apply _noop_elimination_block_shrinks. }
  clear -Hall. unfold program_size.
  induction Hall as [|f f' prog prog' [Hn Hs] _ (IH1 & IH2 & IH3)]; [done|].
  simpl. split_and!; [by rewrite Hn, IH1 | by constructor | unfold block_size in *; lia].
Qed.

Lemma apply_never_grows_witness : program_size nested_prog' ≤ program_size nested_prog.
Proof.
  apply (apply_never_grows __init__ 20 nested_prog nested_prog').
  vm_compute. reflexivity.
Defined.

End NoopEliminationExtraProofs.
